(** * The dictionary loader of dialite (load_dictionaries_async.py)

    A shallow embedding of [DictionaryLoader]: the registry of the eleven
    artifacts, the suffix-dispatched decoder, the batch loop over the
    futures of the thread pool, the pool itself thread by thread, the
    singleton constructor and the module-level accessors, followed by the
    properties of the design document that can be settled on them. *)

From stdpp Require Import gmap strings list fin_maps.
From Stdlib Require Import Strings.Ascii Strings.Byte ZArith.

Open Scope string_scope.
Open Scope list_scope.

(** ** Python string and path primitives *)

Module Py.

(** [str.endswith]: some tail of [s], the empty one included, is [suffix]. *)
Fixpoint endswith (s suffix : string) : bool :=
  if String.eqb s suffix then true
  else match s with
       | EmptyString => false
       | String _ s' => endswith s' suffix
       end.

(** [str.startswith]. *)
Definition startswith (s pre : string) : bool := String.prefix pre s.

(** The part of [p] after its last ['/'], if it has one. *)
Fixpoint after_last_sep (p : string) : option string :=
  match p with
  | EmptyString => None
  | String c p' =>
      match after_last_sep p' with
      | Some t => Some t
      | None => if Ascii.eqb c "/"%char then Some p' else None
      end
  end.

(** [os.path.basename] (posixpath): [p[p.rfind('/') + 1:]]. *)
Definition basename (p : string) : string := default p (after_last_sep p).

(** [os.path.join] (posixpath) for two components. *)
Definition path_join (a b : string) : string :=
  if startswith b "/" then b
  else if String.eqb a "" || endswith a "/" then a +:+ b
  else a +:+ "/" +:+ b.

End Py.


(** ** Exceptions, files and decoders *)

(** What a call raises instead of returning.  The two handlers of the
    loader are [except Exception] clauses: they apply to an exception
    exactly when its class derives from [Exception], and what they print
    of it is [str(e)].  [SystemExit] and the other classes that derive
    from [BaseException] only ([KeyboardInterrupt], [GeneratorExit]) pass
    through both handlers. *)
Inductive raised :=
  | SystemExit (code : Z)            (* [sys.exit(code)] *)
  | BaseException (cls : string)     (* another class outside [Exception] *)
  | AttributeError (name : string)   (* the attribute [name] is missing *)
  | Exception (cls msg : string).    (* any other class under [Exception]; [msg] is [str(e)] *)

(** [raise FileNotFoundError(msg)]. *)
Definition FileNotFoundError (msg : string) : raised :=
  Exception "FileNotFoundError" msg.

(** [except Exception as e]: the text [str(e)] when the handler applies. *)
Definition caught (e : raised) : option string :=
  match e with
  | Exception _ msg => Some msg
  | AttributeError name =>
      Some ("'DictionaryLoader' object has no attribute '" +:+ name +:+ "'")
  | SystemExit _ | BaseException _ => None
  end.

(** What is at a path of the file system. *)
Inductive file :=
  | Unstattable                     (* [os.stat] fails: a directory above the file cannot be searched *)
  | Unreadable (cls msg : string)   (* [open] raises (permissions, a directory, ...) *)
  | Failing (msg : string)          (* [open] succeeds, reading raises [OSError] *)
  | Bytes (bs : list byte).         (* [open] succeeds and the reads deliver [bs] *)

(** The file system is a finite map; at an absent path there is nothing. *)
Abbreviation filesystem := (gmap string file).

(** The library calls of the loader are parameters: [pickle.load], the
    decompression behind [bz2.BZ2File], and [len].  Each returns or
    raises; what [pickle.load] raises is not bounded by [Exception], since
    unpickling runs the callables the pickle names.  [Dict] is the type of
    the unpickled objects: the annotation of the method is not checked, so
    the object need not be a mapping and need not have a length. *)
Class Codec := {
  Dict : Type;
  pickle_load : list byte → raised + Dict;
  bz2_decompress : list byte → raised + list byte;
  len : Dict → raised + nat;
}.

(** ** Observable effects *)

(** The six [print] statements of the loader (elapsed times left out). *)
Inductive line :=
  | Starting                                (* "Starting parallel dictionary loading..." *)
  | Loaded (name : string) (items : nat)    (* "Loaded {basename} in ...s ({len(data)} items)" *)
  | CriticalError (name msg : string)       (* "Critical error loading {basename}: {str(e)}" *)
  | Success (name : string)                 (* "Successfully loaded {basename}" *)
  | Failed (name msg : string)              (* "Failed to load {basename}: {str(e)}" *)
  | AllLoaded.                              (* "All dictionaries loaded in ... seconds" *)

(** A trace records every call of [open] and every printed line.  The
    events of one thread are in program order. *)
Inductive event :=
  | Open (path : string)
  | Print (l : line).

Global Instance byte_eq_decision : EqDecision byte := byte_eq_dec.
Global Instance file_eq_dec : EqDecision file.
Proof. solve_decision. Defined.
Global Instance raised_eq_dec : EqDecision raised.
Proof. solve_decision. Defined.
Global Instance line_eq_dec : EqDecision line.
Proof. solve_decision. Defined.
Global Instance event_eq_dec : EqDecision event.
Proof. solve_decision. Defined.

(** The files a trace opened, in order. *)
Definition opened (tr : list event) : list string :=
  omap (λ ev, match ev with Open p => Some p | Print _ => None end) tr.

(** How often a trace opened [path]. *)
Definition open_count (path : string) (tr : list event) : nat :=
  length (filter (λ p, p = path) (opened tr)).

(** [os.path.exists]: [False] for an absent path and also when [os.stat]
    fails on a path that is there. *)
Definition exists_ (fs : filesystem) (path : string) : bool :=
  match fs !! path with
  | None | Some Unstattable => false
  | Some _ => true
  end.

(** What the reads of the opened file hand to the decoder, or the
    exception of the [open] or of the read. *)
Definition stream (f : file) : raised + list byte :=
  match f with
  | Unstattable => inl (Exception "PermissionError" "Permission denied")
  | Unreadable cls msg => inl (Exception cls msg)
  | Failing msg => inl (Exception "OSError" msg)
  | Bytes bs => inr bs
  end.

(** ** The decoder: [_load_single_dictionary] *)

Section Decoder.
Context `{Codec}.

(** [with open(path, 'rb') as f: data = pickle.load(f)] *)
Definition load_pickle (fs : filesystem) (path : string) : raised + Dict :=
  match fs !! path with
  | None => inl (FileNotFoundError ("No such file or directory: " +:+ path))
  | Some f =>
      match stream f with
      | inl e => inl e
      | inr bs => pickle_load bs
      end
  end.

(** [with bz2.BZ2File(path, "rb") as f: data = cPickle.load(f)] *)
Definition load_pbz2 (fs : filesystem) (path : string) : raised + Dict :=
  match fs !! path with
  | None => inl (FileNotFoundError ("No such file or directory: " +:+ path))
  | Some f =>
      match stream f with
      | inl e => inl e
      | inr bs =>
          match bz2_decompress bs with
          | inl e => inl e
          | inr raw => pickle_load raw
          end
      end
  end.

(** Lines 103 to 108: the branch on the suffix. *)
Definition load_data (fs : filesystem) (path : string) : raised + Dict :=
  if Py.endswith path ".pickle" then load_pickle fs path
  else load_pbz2 fs path.

(** The body of the [try] block.  [len(data)] is evaluated for the
    "Loaded" line, inside the block: when it raises, nothing is printed
    and the payload is not returned. *)
Definition load_body (fs : filesystem) (path : string)
  : list event * (raised + Dict) :=
  if negb (exists_ fs path) then
    ([], inl (FileNotFoundError ("File not found: " +:+ path)))
  else
    match load_data fs path with
    | inl e => ([Open path], inl e)
    | inr data =>
        match len data with
        | inl e => ([Open path], inl e)
        | inr items =>
            ([Open path; Print (Loaded (Py.basename path) items)], inr data)
        end
    end.

(** The whole method: [except Exception as e: print(...); raise].  An
    exception outside [Exception] leaves the method without the line. *)
Definition _load_single_dictionary (fs : filesystem) (path : string)
  : list event * (raised + Dict) :=
  match load_body fs path with
  | (tr, inr data) => (tr, inr data)
  | (tr, inl e) =>
      match caught e with
      | Some msg =>
          (tr ++ [Print (CriticalError (Py.basename path) msg)], inl e)
      | None => (tr, inl e)
      end
  end.

End Decoder.


(** ** The registry: [_setup_paths] and the task list *)

(** The attributes [_setup_paths] stores on the instance. *)
Record paths := {
  base_dir : string;
  YAGO_PATH : string;
  LABEL_FILE_PATH : string;
  TYPE_FILE_PATH : string;
  CLASS_FILE_PATH : string;
  FACT_FILE_PATH : string;
  YAGO_MAIN_INVERTED_INDEX_PATH : string;
  YAGO_MAIN_RELATION_INDEX_PATH : string;
  YAGO_MAIN_PICKLE_TRIPLE_INDEX_PATH : string;
  SYNTH_TYPE_KB_PATH : string;
  SYNTH_RELATION_KB_PATH : string;
  SYNTH_TYPE_INVERTED_INDEX_PATH : string;
  SYNTH_RELATION_INVERTED_INDEX_PATH : string;
}.

(** [_setup_paths]; [dir] is [os.path.dirname(os.path.abspath(__file__))]. *)
Definition _setup_paths (dir : string) : paths :=
  let yago := Py.path_join dir "yago" in
  {| base_dir := dir;
     YAGO_PATH := yago;
     LABEL_FILE_PATH := Py.path_join yago "yago-wd-labels_dict.pickle";
     TYPE_FILE_PATH := Py.path_join yago "yago-wd-full-types_dict.pickle";
     CLASS_FILE_PATH := Py.path_join yago "yago-wd-class_dict.pickle";
     FACT_FILE_PATH := Py.path_join yago "yago-wd-facts_dict.pickle";
     YAGO_MAIN_INVERTED_INDEX_PATH :=
       Py.path_join dir "santos/hashmap/dialite_datalake_main_yago_index.pickle";
     YAGO_MAIN_RELATION_INDEX_PATH :=
       Py.path_join dir "santos/hashmap/dialite_datalake_main_relation_index.pickle";
     YAGO_MAIN_PICKLE_TRIPLE_INDEX_PATH :=
       Py.path_join dir "santos/hashmap/dialite_datalake_main_triple_index.pickle";
     SYNTH_TYPE_KB_PATH :=
       Py.path_join dir "santos/hashmap/dialite_datalake_synth_type_kb.pbz2";
     SYNTH_RELATION_KB_PATH :=
       Py.path_join dir "santos/hashmap/dialite_datalake_synth_relation_kb.pbz2";
     SYNTH_TYPE_INVERTED_INDEX_PATH :=
       Py.path_join dir "santos/hashmap/dialite_datalake_synth_type_inverted_index.pbz2";
     SYNTH_RELATION_INVERTED_INDEX_PATH :=
       Py.path_join dir "santos/hashmap/dialite_datalake_synth_relation_inverted_index.pbz2";
  |}.

(** A load task: the path to decode and the attribute to store it under. *)
Abbreviation task := (string * string)%type.

(** The list [load_tasks] of [_load_all_dictionaries]. *)
Definition load_tasks (p : paths) : list task :=
  [ (LABEL_FILE_PATH p, "label_dict");
    (TYPE_FILE_PATH p, "type_dict");
    (CLASS_FILE_PATH p, "class_dict");
    (FACT_FILE_PATH p, "fact_dict");
    (YAGO_MAIN_INVERTED_INDEX_PATH p, "yago_inverted_index");
    (YAGO_MAIN_RELATION_INDEX_PATH p, "yago_relation_index");
    (YAGO_MAIN_PICKLE_TRIPLE_INDEX_PATH p, "main_index_triples");
    (SYNTH_TYPE_KB_PATH p, "synth_type_kb");
    (SYNTH_RELATION_KB_PATH p, "synth_relation_kb");
    (SYNTH_TYPE_INVERTED_INDEX_PATH p, "synth_type_inverted_index");
    (SYNTH_RELATION_INVERTED_INDEX_PATH p, "synth_relation_inverted_index") ].

(** The names read by [all_dictionaries] and by the module-level
    assignments, in the order of the source. *)
Definition accessor_names : list string :=
  [ "label_dict"; "type_dict"; "class_dict"; "fact_dict";
    "yago_inverted_index"; "yago_relation_index"; "main_index_triples";
    "synth_type_kb"; "synth_relation_kb";
    "synth_type_inverted_index"; "synth_relation_inverted_index" ].


(** ** The loader object and the batch loop *)

Section Loader.
Context `{Codec}.

(** An instance of [DictionaryLoader]: the paths once [_setup_paths] ran,
    the attributes stored by [setattr], and what [self._loaded] reads (the
    class attribute [False] until the instance gets its own). *)
Record instance := {
  inst_paths : option paths;
  attrs : gmap string Dict;
  _loaded : bool;
}.

Definition new_instance : instance :=
  {| inst_paths := None; attrs := ∅; _loaded := false |}.

Definition set_paths (self : instance) (p : paths) : instance :=
  {| inst_paths := Some p; attrs := attrs self; _loaded := _loaded self |}.

Definition setattr (self : instance) (name : string) (data : Dict) : instance :=
  {| inst_paths := inst_paths self;
     attrs := <[name := data]> (attrs self);
     _loaded := _loaded self |}.

Definition set_loaded (self : instance) : instance :=
  {| inst_paths := inst_paths self; attrs := attrs self; _loaded := true |}.

(** Attribute access; a missing attribute raises. *)
Definition getattr (self : instance) (name : string) : raised + Dict :=
  match attrs self !! name with
  | Some data => inr data
  | None => inl (AttributeError name)
  end.

(** What the worker threads do for the submitted [tasks], when each task
    runs to its end before the next one starts. *)
Definition workers (fs : filesystem) (tasks : list task) : list event :=
  flat_map (λ t, (_load_single_dictionary fs t.1).1) tasks.

(** One iteration of [for future in as_completed(futures)], for the future
    of task [t]: [future.result()] returns what the task returned or
    raises what it raised; the handler is an [except Exception] clause, so
    an exception outside [Exception] leaves the loop as it is. *)
Definition handle (fs : filesystem) (t : task) (self : instance)
  : list event * instance * (raised + ()) :=
  let '(path, attr_name) := t in
  match (_load_single_dictionary fs path).2 with
  | inr data =>
      ([Print (Success (Py.basename path))], setattr self attr_name data, inr ())
  | inl e =>
      match caught e with
      | Some msg =>
          ([Print (Failed (Py.basename path) msg)], self, inl (SystemExit 1))
      | None => ([], self, inl e)
      end
  end.

(** The loop, over the futures in the order [as_completed] yields them. *)
Fixpoint collect (fs : filesystem) (order : list task) (self : instance)
  : list event * instance * (raised + ()) :=
  match order with
  | [] => ([], self, inr ())
  | t :: rest =>
      match handle fs t self with
      | (tr, self', inr _) =>
          let '(tr', self'', r) := collect fs rest self' in
          (tr ++ tr', self'', r)
      | (tr, self', inl x) => (tr, self', inl x)
      end
  end.

(** [_load_all_dictionaries].  The task list is built from the paths of
    the instance and every task is submitted before the loop starts;
    [order] is the order in which [as_completed] yields the futures, a
    permutation of the task list.  Leaving the [with] block, normally or
    by an exception, calls [shutdown(wait=True)], which cancels nothing:
    the method ends only when every submitted task has run to its end.
    The trace is that of the run in which the workers have finished when
    the loop starts; [pool_step] below has every other interleaving. *)
Definition _load_all_dictionaries (fs : filesystem) (order : list task)
    (self : instance) : list event * instance * (raised + ()) :=
  match inst_paths self with
  | None => ([], self, inl (AttributeError "LABEL_FILE_PATH"))
  | Some p =>
      match collect fs order self with
      | (tr, self', inr _) =>
          (Print Starting :: workers fs (load_tasks p) ++ tr ++ [Print AllLoaded],
           self', inr ())
      | (tr, self', inl x) =>
          (Print Starting :: workers fs (load_tasks p) ++ tr, self', inl x)
      end
  end.

(** The [all_dictionaries] property: the attributes are read one after
    the other, and the first missing one raises. *)
Fixpoint read_all (self : instance) (names : list string)
  : raised + list (string * Dict) :=
  match names with
  | [] => inr []
  | name :: names' =>
      match getattr self name with
      | inl x => inl x
      | inr data =>
          match read_all self names' with
          | inl x => inl x
          | inr l => inr ((name, data) :: l)
          end
      end
  end.

Definition all_dictionaries (self : instance) : raised + list (string * Dict) :=
  read_all self accessor_names.

(** ** The class: singleton construction *)

(** The state of the process: the class attribute [_instance] (a reference
    into the heap of instances), the instances allocated so far, and the
    trace of what was opened and printed.  The class attribute [_loaded]
    is never assigned and stays [False]. *)
Record state := {
  cls_instance : option nat;
  heap : list instance;
  trace : list event;
}.

(** The state right after the class statement. *)
Definition init_state : state :=
  {| cls_instance := None; heap := []; trace := [] |}.

(** [_initialize] on the instance at [self]. *)
Definition _initialize (fs : filesystem) (dir : string) (order : list task)
    (s : state) (self : nat) : state * (raised + ()) :=
  match heap s !! self with
  | None => (s, inl (AttributeError "_initialize"))
  | Some inst =>
      if _loaded inst then (s, inr ())
      else
        let inst1 := set_paths inst (_setup_paths dir) in
        match _load_all_dictionaries fs order inst1 with
        | (tr, inst2, inr _) =>
            ({| cls_instance := cls_instance s;
                heap := <[self := set_loaded inst2]> (heap s);
                trace := trace s ++ tr |}, inr ())
        | (tr, inst2, inl x) =>
            ({| cls_instance := cls_instance s;
                heap := <[self := inst2]> (heap s);
                trace := trace s ++ tr |}, inl x)
        end
  end.

(** [DictionaryLoader()], run without interruption. *)
Definition __new__ (fs : filesystem) (dir : string) (order : list task)
    (s : state) : state * (raised + nat) :=
  match cls_instance s with
  | Some l => (s, inr l)
  | None =>
      let l := length (heap s) in
      let s1 := {| cls_instance := Some l;
                   heap := heap s ++ [new_instance];
                   trace := trace s |} in
      match _initialize fs dir order s1 l with
      | (s2, inr _) => (s2, inr l)
      | (s2, inl x) => (s2, inl x)
      end
  end.

(** ** The module body: [loader = DictionaryLoader()] and the accessors *)

(** Lines 147 to 158: the reference bound to [loader] and the eleven
    module-level names, or the exception that ends the import. *)
Definition module_body (fs : filesystem) (dir : string) (order : list task)
  : state * (raised + (nat * list (string * Dict))) :=
  match __new__ fs dir order init_state with
  | (s, inl x) => (s, inl x)
  | (s, inr l) =>
      match heap s !! l with
      | None => (s, inl (AttributeError "loader"))
      | Some self =>
          match read_all self accessor_names with
          | inl x => (s, inl x)
          | inr globals => (s, inr (l, globals))
          end
      end
  end.

End Loader.


(** ** Callers that interleave *)

(** Nothing in the class synchronises callers, so a second thread can run
    between any two statements of [__new__].  A call is cut at these
    points; each step below is a run of statements executed without a
    switch in between. *)
Inductive pc :=
  | AtCheck                                    (* [if cls._instance is None:] *)
  | AtCreate                                   (* [cls._instance = super().__new__(cls)] *)
  | AtInitialize                               (* [cls._instance._initialize()] up to the first future of [as_completed] *)
  | InLoop (self : nat) (pending : list task)  (* the next future of [as_completed] *)
  | AtSetLoaded (self : nat)                   (* [self._loaded = True] *)
  | AtReturn                                   (* [return cls._instance] *)
  | Finished (r : raised + nat).

(** A caller: the order in which its futures are yielded and its
    position. *)
Abbreviation caller := (list task * pc)%type.

Section Threads.
Context `{Codec}.

Definition log (s : state) (tr : list event) : state :=
  {| cls_instance := cls_instance s; heap := heap s; trace := trace s ++ tr |}.

Definition store (s : state) (l : nat) (inst : instance) : state :=
  {| cls_instance := cls_instance s;
     heap := <[l := inst]> (heap s);
     trace := trace s |}.

(** One step of a call whose futures are yielded in the order [order].
    As in [_load_all_dictionaries], the events of the worker threads are
    logged where the tasks are submitted; [pool_step] below has the order
    of the events of one batch thread by thread. *)
Definition step (fs : filesystem) (dir : string) (order : list task)
    (s : state) (c : pc) : state * pc :=
  match c with
  | AtCheck =>
      (s, match cls_instance s with None => AtCreate | Some _ => AtReturn end)
  | AtCreate =>
      ({| cls_instance := Some (length (heap s));
          heap := heap s ++ [new_instance];
          trace := trace s |}, AtInitialize)
  | AtInitialize =>
      match cls_instance s with
      | None => (s, Finished (inl (AttributeError "_initialize")))
      | Some self =>
          match heap s !! self with
          | None => (s, Finished (inl (AttributeError "_initialize")))
          | Some inst =>
              if _loaded inst then (s, AtReturn)
              else
                (log (store s self (set_paths inst (_setup_paths dir)))
                     (Print Starting
                      :: workers fs (load_tasks (_setup_paths dir))),
                 InLoop self order)
          end
      end
  | InLoop self [] => (log s [Print AllLoaded], AtSetLoaded self)
  | InLoop self (t :: rest) =>
      match heap s !! self with
      | None => (s, Finished (inl (AttributeError t.2)))
      | Some inst =>
          match handle fs t inst with
          | (tr, inst', inr _) => (log (store s self inst') tr, InLoop self rest)
          | (tr, inst', inl x) => (log (store s self inst') tr, Finished (inl x))
          end
      end
  | AtSetLoaded self =>
      match heap s !! self with
      | None => (s, Finished (inl (AttributeError "_loaded")))
      | Some inst => (store s self (set_loaded inst), AtReturn)
      end
  | AtReturn =>
      match cls_instance s with
      | None => (s, Finished (inl (AttributeError "_instance")))
      | Some l => (s, Finished (inr l))
      end
  | Finished r => (s, Finished r)
  end.

(** A call on its own: [n] steps without a switch. *)
Fixpoint run_alone (n : nat) (fs : filesystem) (dir : string)
    (order : list task) (s : state) (c : pc) : state * pc :=
  match n with
  | 0 => (s, c)
  | S n' =>
      run_alone n' fs dir order (step fs dir order s c).1
        (step fs dir order s c).2
  end.

(** Several callers: a schedule names, step by step, the caller that runs
    next. *)
Definition sched_step (fs : filesystem) (dir : string)
    (cfg : state * list caller) (i : nat) : state * list caller :=
  let '(s, cs) := cfg in
  match cs !! i with
  | None => cfg
  | Some (order, c) =>
      let '(s', c') := step fs dir order s c in
      (s', <[i := (order, c')]> cs)
  end.

Definition run (fs : filesystem) (dir : string) (schedule : list nat)
    (cfg : state * list caller) : state * list caller :=
  foldl (sched_step fs dir) cfg schedule.

(** What a caller that finds [_instance] set is handed. *)
Definition published (s : state) : option instance :=
  cls_instance s ≫= (heap s !!.).

(** What reading the attribute [name] of that instance gives; [None] when
    there is no instance yet. *)
Definition get (s : state) (name : string) : option (raised + Dict) :=
  (λ self, getattr self name) <$> published s.

End Threads.

(** ** The thread pool of one batch *)

(** Lines 77 to 91 thread by thread.  A submitted task waits in the queue
    of the executor, runs on one of its workers, and finishes; the main
    thread takes finished futures from [as_completed] one at a time.  The
    executor has four workers and starts the tasks in the order of
    submission. *)
Inductive progress :=
  | Queued
  | Running (todo : list event)   (* on a worker, with these events still to come *)
  | Done                          (* the future is finished *)
  | Yielded.                      (* finished, and [as_completed] has yielded it *)

(** Where the main thread is. *)
Inductive position :=
  | Looping                       (* in the loop over [as_completed] *)
  | Unwinding (x : raised)        (* [x] leaves the [with] block: [__exit__] waits for the workers *)
  | Exited (r : raised + ()).     (* the method has returned or raised *)

(** What a schedule picks next: a step of the worker of job [i], the main
    thread taking the future of job [i], or the main thread otherwise. *)
Inductive action :=
  | Work (i : nat)
  | Yield (i : nat)
  | Main.

Definition max_workers : nat := 4.

Definition is_queued (pr : progress) : bool :=
  match pr with Queued => true | _ => false end.

Definition is_running (pr : progress) : bool :=
  match pr with Running _ => true | _ => false end.

Definition is_finished (pr : progress) : bool :=
  match pr with Done | Yielded => true | _ => false end.

Definition is_yielded (pr : progress) : bool :=
  match pr with Yielded => true | _ => false end.

(** Job [i] can leave the queue: the jobs submitted before it have left
    it, and a worker is free. *)
Definition may_start (js : list (task * progress)) (i : nat) : bool :=
  forallb (λ j, negb (is_queued j.2)) (take i js)
  && bool_decide (length (filter (λ j, is_running j.2 = true) js) < max_workers).

(** The events a job has still to produce. *)
Definition todo_of `{Codec} (fs : filesystem) (j : task * progress)
  : list event :=
  match j.2 with
  | Queued => (_load_single_dictionary fs j.1.1).1
  | Running todo => todo
  | Done | Yielded => []
  end.

Section Pool.
Context `{Codec}.

Record pool := {
  pool_jobs : list (task * progress);   (* in the order of submission *)
  pool_order : list task;               (* the futures yielded so far *)
  pool_main : position;
  pool_self : instance;
  pool_out : list event;
}.

(** The pool once every task is submitted (lines 75 to 81). *)
Definition submit (tasks : list task) (self : instance) : pool :=
  {| pool_jobs := (λ t, (t, Queued)) <$> tasks;
     pool_order := [];
     pool_main := Looping;
     pool_self := self;
     pool_out := [Print Starting] |}.

Definition set_job (p : pool) (i : nat) (t : task) (pr : progress)
    (evs : list event) : pool :=
  {| pool_jobs := <[i := (t, pr)]> (pool_jobs p);
     pool_order := pool_order p;
     pool_main := pool_main p;
     pool_self := pool_self p;
     pool_out := pool_out p ++ evs |}.

Definition set_main (p : pool) (m : position) (evs : list event) : pool :=
  {| pool_jobs := pool_jobs p;
     pool_order := pool_order p;
     pool_main := m;
     pool_self := pool_self p;
     pool_out := pool_out p ++ evs |}.

(** One step of the pool.  An action that is not possible leaves the pool
    as it is.  No action takes a job back: there is no cancellation. *)
Definition pool_step (fs : filesystem) (p : pool) (a : action) : pool :=
  match a with
  | Work i =>
      match pool_jobs p !! i with
      | Some (t, Queued) =>
          if may_start (pool_jobs p) i
          then set_job p i t (Running (_load_single_dictionary fs t.1).1) []
          else p
      | Some (t, Running (ev :: todo)) => set_job p i t (Running todo) [ev]
      | Some (t, Running []) => set_job p i t Done []
      | _ => p
      end
  | Yield i =>
      match pool_main p, pool_jobs p !! i with
      | Looping, Some (t, Done) =>
          match handle fs t (pool_self p) with
          | (tr, self', r) =>
              {| pool_jobs := <[i := (t, Yielded)]> (pool_jobs p);
                 pool_order := pool_order p ++ [t];
                 pool_main := match r with
                              | inr _ => Looping
                              | inl x => Unwinding x
                              end;
                 pool_self := self';
                 pool_out := pool_out p ++ tr |}
          end
      | _, _ => p
      end
  | Main =>
      match pool_main p with
      | Looping =>
          if forallb (λ j, is_yielded j.2) (pool_jobs p)
          then set_main p (Exited (inr ())) [Print AllLoaded]
          else p
      | Unwinding x =>
          if forallb (λ j, is_finished j.2) (pool_jobs p)
          then set_main p (Exited (inl x)) []
          else p
      | Exited _ => p
      end
  end.

Definition pool_run (fs : filesystem) (schedule : list action) (p : pool)
  : pool :=
  foldl (pool_step fs) p schedule.

(** The schedule that runs every job that is not finished to its end, one
    after the other in the order of submission, and then lets the main
    thread go on. *)
Definition finish_job (fs : filesystem) (i : nat) (j : task * progress)
  : list action :=
  replicate (2 + length (todo_of fs j)) (Work i).

Fixpoint finish_from (fs : filesystem) (i : nat) (js : list (task * progress))
  : list action :=
  match js with
  | [] => []
  | j :: js' => finish_job fs i j ++ finish_from fs (S i) js'
  end.

Definition finish_all (fs : filesystem) (p : pool) : list action :=
  finish_from fs 0 (pool_jobs p) ++ [Main].

End Pool.


(** ** A concrete codec and file system for the examples *)

Module Sample.

(** The objects of the examples: a mapping, which has a length, and an
    integer, which has none. *)
Inductive object :=
  | Mapping (items : list byte)
  | Int (n : byte).

(** A decoder small enough to run.  A pickle is the byte [0x80] followed
    by the items of a mapping, or the byte [0x4b] followed by an integer,
    or the byte [0x52] followed by an exit status, which stands for a
    pickle that calls [sys.exit]; a bz2 stream is the three bytes ["BZh"]
    followed by what it wraps.  The exceptions have the classes and texts
    of the library. *)
Definition codec : Codec :=
  {| Dict := object;
     pickle_load bs :=
       match bs with
       | [] => inl (Exception "EOFError" "Ran out of input")
       | x80 :: items => inr (Mapping items)
       | [x4b; n] => inr (Int n)
       | x52 :: code :: _ => inl (SystemExit (Z.of_N (Byte.to_N code)))
       | _ => inl (Exception "UnpicklingError" "invalid load key")
       end;
     bz2_decompress bs :=
       match bs with
       | x42 :: x5a :: x68 :: raw => inr raw
       | _ => inl (Exception "OSError" "Invalid data stream")
       end;
     len data :=
       match data with
       | Mapping items => inr (length items)
       | Int _ => inl (Exception "TypeError" "object of type 'int' has no len()")
       end |}.

Definition dir : string := "/srv/dialite".

Definition cfg : paths := _setup_paths dir.

(** A well-formed raw artifact with payload [b], and a compressed one. *)
Definition raw (b : byte) : file := Bytes [x80; b].
Definition pbz2 (b : byte) : file := Bytes [x42; x5a; x68; x80; b].

(** All eleven artifacts in place and well formed. *)
Definition fs_ok : filesystem :=
  list_to_map
    [ (LABEL_FILE_PATH cfg, raw x01);
      (TYPE_FILE_PATH cfg, raw x02);
      (CLASS_FILE_PATH cfg, raw x03);
      (FACT_FILE_PATH cfg, raw x04);
      (YAGO_MAIN_INVERTED_INDEX_PATH cfg, raw x05);
      (YAGO_MAIN_RELATION_INDEX_PATH cfg, raw x06);
      (YAGO_MAIN_PICKLE_TRIPLE_INDEX_PATH cfg, raw x07);
      (SYNTH_TYPE_KB_PATH cfg, pbz2 x08);
      (SYNTH_RELATION_KB_PATH cfg, pbz2 x09);
      (SYNTH_TYPE_INVERTED_INDEX_PATH cfg, pbz2 x0a);
      (SYNTH_RELATION_INVERTED_INDEX_PATH cfg, pbz2 x0b) ].

(** The same with the entity-type table removed. *)
Definition fs_missing : filesystem := delete (TYPE_FILE_PATH cfg) fs_ok.

(** The same with the fact table truncated to nothing. *)
Definition fs_corrupt : filesystem :=
  <[FACT_FILE_PATH cfg := Bytes []]> fs_ok.

(** The same with the entity-type table in a directory that cannot be
    searched. *)
Definition fs_hidden : filesystem :=
  <[TYPE_FILE_PATH cfg := Unstattable]> fs_ok.

(** The same with the class table holding the pickle of an integer. *)
Definition fs_unsized : filesystem :=
  <[CLASS_FILE_PATH cfg := Bytes [x4b; x2a]]> fs_ok.

(** The same with the label table holding a pickle that calls
    [sys.exit(0)]. *)
Definition fs_exits : filesystem :=
  <[LABEL_FILE_PATH cfg := Bytes [x52; x00]]> fs_ok.

(** The futures yielded in the order of submission. *)
Definition in_order : list task := load_tasks cfg.

(** The future of the entity-type table yielded first, the others after
    it in the order of submission. *)
Definition type_first : list task :=
  (TYPE_FILE_PATH cfg, "type_dict")
  :: filter (λ t, t.2 ≠ "type_dict") (load_tasks cfg).

(** A schedule of the pool: the label table is loaded and its future
    handled, then the task of the entity-type table runs and its future
    is handled. *)
Definition label_then_type : list action :=
  replicate 4 (Work 0) ++ [Yield 0] ++ replicate 3 (Work 1) ++ [Yield 1].

(** A schedule of the pool: the first four tasks start, the task of the
    entity-type table runs to its end and its future is the first one
    handled. *)
Definition type_fails_early : list action :=
  [Work 0; Work 1; Work 2; Work 3; Work 1; Work 1; Yield 1].

End Sample.


(** ** The vocabulary of the design document *)

(** The declared format of an artifact and the file-name convention that
    signals it. *)
Inductive format := Raw | Compressed.

Definition declared_format (path : string) : option format :=
  if Py.endswith path ".pickle" then Some Raw
  else if Py.endswith path ".pbz2" then Some Compressed
  else None.

(** The format the branch of [_load_single_dictionary] stands for: Raw for
    the suffix [.pickle], Compressed for every other name. *)
Definition dispatched (path : string) : format :=
  if Py.endswith path ".pickle" then Raw else Compressed.

(** The lines of a trace that the main thread prints. *)
Definition by_main (ev : event) : bool :=
  match ev with
  | Print Starting | Print (Success _) | Print (Failed _ _) | Print AllLoaded =>
      true
  | _ => false
  end.

Definition main_lines (tr : list event) : list event :=
  filter (λ ev, by_main ev = true) tr.

Section Contract.
Context `{Codec}.

(** The codec as the design document words it: a Raw artifact is read and
    deserialized directly, a Compressed one is read, decompressed and then
    deserialized. *)
Definition spec_decode (fmt : format) (f : file) : raised + Dict :=
  match stream f with
  | inl e => inl e
  | inr bs =>
      match fmt with
      | Raw => pickle_load bs
      | Compressed =>
          match bz2_decompress bs with
          | inl e => inl e
          | inr raw => pickle_load raw
          end
      end
  end.

(** What the method adds to the decode: the payload is handed on once
    [len] has returned on it. *)
Definition measured (r : raised + Dict) : raised + Dict :=
  match r with
  | inl e => inl e
  | inr data =>
      match len data with
      | inl e => inl e
      | inr _ => inr data
      end
  end.

(** A decode error of the artifact at [path]: the exception of the
    decompression or of the deserialization of the bytes that were read. *)
Definition decode_error (fs : filesystem) (path : string) (e : raised) : Prop :=
  ∃ bs, fs !! path = Some (Bytes bs)
        ∧ match dispatched path with
          | Raw => pickle_load bs = inl e
          | Compressed =>
              bz2_decompress bs = inl e
              ∨ ∃ raw, bz2_decompress bs = inr raw ∧ pickle_load raw = inl e
          end.

(** The result of the task of the artifact at [path], without its
    trace. *)
Definition decoded (fs : filesystem) (path : string) : raised + Dict :=
  (_load_single_dictionary fs path).2.

(** The instance holds a payload for every declared key. *)
Definition fully_populated (self : instance) : Prop :=
  ∀ name, name ∈ accessor_names → is_Some (attrs self !! name).

(** The instance [_initialize] hands to [_load_all_dictionaries]. *)
Definition configured (dir : string) : instance :=
  set_paths new_instance (_setup_paths dir).

(** The task returns a payload. *)
Definition decodes (fs : filesystem) (t : task) : Prop :=
  ∃ data, decoded fs t.1 = inr data.

(** What the loop has stored once the futures of [done] were handled
    without a failure, and what it has printed on the way. *)
Definition stored (fs : filesystem) (done : list task) (self : instance)
  : instance :=
  foldl (λ inst t, match decoded fs t.1 with
                   | inr data => setattr inst t.2 data
                   | inl _ => inst
                   end) self done.

Definition success_lines (done : list task) : list event :=
  (λ t : task, Print (Success (Py.basename t.1))) <$> done.

(** What the handler of a task prints for the exception [e]: the
    "Critical error" line when it applies, nothing when it does not. *)
Definition critical (path : string) (e : raised) : list event :=
  match caught e with
  | Some msg => [Print (CriticalError (Py.basename path) msg)]
  | None => []
  end.

(** What the loop prints for a future that raised [e], and what it
    raises then: the "Failed to load" line and [SystemExit(1)] when the
    handler applies, nothing and [e] itself when it does not. *)
Definition reported (path : string) (e : raised) : list event :=
  match caught e with
  | Some msg => [Print (Failed (Py.basename path) msg)]
  | None => []
  end.

Definition raised_by (e : raised) : raised :=
  match caught e with
  | Some _ => SystemExit 1
  | None => e
  end.

(** The state the first constructor call of a process leaves when every
    task returns, and the one it leaves when the future of [path] is the
    first failed one, yielded after those of [pre]. *)
Definition ready_state (fs : filesystem) (dir : string) (order : list task)
  : state :=
  {| cls_instance := Some 0;
     heap := [set_loaded (stored fs order (configured dir))];
     trace := Print Starting :: workers fs (load_tasks (_setup_paths dir))
                ++ success_lines order ++ [Print AllLoaded] |}.

Definition failed_state (fs : filesystem) (dir : string) (pre : list task)
    (path : string) (e : raised) : state :=
  {| cls_instance := Some 0;
     heap := [stored fs pre (configured dir)];
     trace := Print Starting :: workers fs (load_tasks (_setup_paths dir))
                ++ success_lines pre ++ reported path e |}.


(** From [s] to [s'] every instance is still there and has kept its
    attributes. *)
Definition grows (s s' : state) : Prop :=
  ∀ l inst, heap s !! l = Some inst →
    ∃ inst', heap s' !! l = Some inst'
             ∧ ∀ k, is_Some (attrs inst !! k) → is_Some (attrs inst' !! k).

(** Every instance whose [_loaded] is set holds every declared key. *)
Definition flag_sound (s : state) : Prop :=
  ∀ l inst, heap s !! l = Some inst → _loaded inst = true →
            fully_populated inst.

(** What a call at position [c] has established about its instance: in
    the loop, every declared key is stored or still pending; before
    [self._loaded = True], every declared key is stored. *)
Definition pc_inv (s : state) (c : pc) : Prop :=
  match c with
  | InLoop self pending =>
      ∃ inst, heap s !! self = Some inst
              ∧ ∀ k, k ∈ accessor_names →
                     is_Some (attrs inst !! k) ∨ k ∈ pending.*2
  | AtSetLoaded self =>
      ∃ inst, heap s !! self = Some inst ∧ fully_populated inst
  | _ => True
  end.

(** The invariant of a set of interleaved calls. *)
Definition well_formed (dir : string) (cfg : state * list caller) : Prop :=
  flag_sound cfg.1
  ∧ Forall (λ c : caller,
      c.1 ≡ₚ load_tasks (_setup_paths dir) ∧ pc_inv cfg.1 c.2) cfg.2.

(** What the main thread of a pool has reached: the result of the loop
    so far. *)
Definition outcome (m : position) : raised + () :=
  match m with
  | Looping => inr ()
  | Unwinding x => inl x
  | Exited r => r
  end.

Definition closing (m : position) : list event :=
  match m with
  | Exited (inr _) => [Print AllLoaded]
  | _ => []
  end.

(** The invariants of a pool that was submitted [tasks] for the instance
    [self0].  The jobs: they are the tasks, what a job has still to do are
    events of a worker, and the jobs have left the queue in the order of
    submission. *)
Definition jobs_inv (fs : filesystem) (tasks : list task) (p : pool) : Prop :=
  (pool_jobs p).*1 = tasks
  ∧ Forall (λ j : task * progress,
      Forall (λ ev, by_main ev = false) (todo_of fs j)) (pool_jobs p)
  ∧ (∀ i j ti tj pr,
       i < j → pool_jobs p !! i = Some (ti, Queued) →
       pool_jobs p !! j = Some (tj, pr) → pr = Queued).

(** The loop: the futures yielded are those of the jobs marked so; the
    instance and the position of the main thread are those of the loop
    over the futures yielded so far, the last of which is the one that
    raised, if one did; the method has only been left with every job at
    its end. *)
Definition loop_inv (fs : filesystem) (self0 : instance) (p : pool) : Prop :=
  pool_order p
  ≡ₚ (filter (λ j : task * progress, is_yielded j.2 = true) (pool_jobs p)).*1
  ∧ (collect fs (pool_order p) self0).1.2 = pool_self p
  ∧ (collect fs (pool_order p) self0).2 = outcome (pool_main p)
  ∧ (∀ x, outcome (pool_main p) = inl x →
       ∃ pre t, pool_order p = pre ++ [t]
                ∧ (collect fs pre self0).2 = inr ())
  ∧ (∀ r, pool_main p = Exited r →
       Forall (λ j : task * progress, is_finished j.2 = true) (pool_jobs p))
  ∧ (pool_main p = Exited (inr ()) →
       Forall (λ j : task * progress, is_yielded j.2 = true) (pool_jobs p)).

(** The trace: what was printed and opened, together with what the jobs
    have still to do, is what the tasks do and the loop prints. *)
Definition trace_inv (fs : filesystem) (tasks : list task) (self0 : instance)
    (p : pool) : Prop :=
  pool_out p ++ flat_map (todo_of fs) (pool_jobs p)
  ≡ₚ Print Starting :: workers fs tasks
       ++ (collect fs (pool_order p) self0).1.1 ++ closing (pool_main p).

Definition pool_inv (fs : filesystem) (tasks : list task) (self0 : instance)
    (p : pool) : Prop :=
  jobs_inv fs tasks p ∧ loop_inv fs self0 p ∧ trace_inv fs tasks self0 p.

(** A failure has been reported: [x] is leaving the [with] block or has
    left the method. *)
Definition stopped (x : raised) (p : pool) : Prop :=
  pool_main p = Unwinding x ∨ pool_main p = Exited (inl x).

(** The progress of a job never goes back. *)
Definition rank (pr : progress) : nat :=
  match pr with
  | Queued => 0
  | Running _ => 1
  | Done => 2
  | Yielded => 3
  end.

End Contract.

(** The file names of the eleven artifacts, as the diagnostics print
    them. *)
Definition base_names : list string :=
  [ "yago-wd-labels_dict.pickle";
    "yago-wd-full-types_dict.pickle";
    "yago-wd-class_dict.pickle";
    "yago-wd-facts_dict.pickle";
    "dialite_datalake_main_yago_index.pickle";
    "dialite_datalake_main_relation_index.pickle";
    "dialite_datalake_main_triple_index.pickle";
    "dialite_datalake_synth_type_kb.pbz2";
    "dialite_datalake_synth_relation_kb.pbz2";
    "dialite_datalake_synth_type_inverted_index.pbz2";
    "dialite_datalake_synth_relation_inverted_index.pbz2" ].

(** The "Failed to load" lines of a trace: file name and cause. *)
Definition failed_lines (tr : list event) : list (string * string) :=
  omap (λ ev, match ev with
              | Print (Failed name msg) => Some (name, msg)
              | _ => None
              end) tr.

(** The "Critical error" lines of a trace. *)
Definition critical_lines (tr : list event) : list (string * string) :=
  omap (λ ev, match ev with
              | Print (CriticalError name msg) => Some (name, msg)
              | _ => None
              end) tr.

(** The events of a trace that follow its first "Failed to load" line. *)
Fixpoint after_failure (tr : list event) : list event :=
  match tr with
  | [] => []
  | Print (Failed _ _) :: tr' => tr'
  | _ :: tr' => after_failure tr'
  end.

(** The registry relative to the base directory: the separator
    [os.path.join] inserts after [dir], and the eleven relative paths. *)
Definition sep_after (dir : string) : string :=
  if String.eqb dir "" || Py.endswith dir "/" then "" else "/".

Definition rel_paths : list string :=
  [ "yago/yago-wd-labels_dict.pickle";
    "yago/yago-wd-full-types_dict.pickle";
    "yago/yago-wd-class_dict.pickle";
    "yago/yago-wd-facts_dict.pickle";
    "santos/hashmap/dialite_datalake_main_yago_index.pickle";
    "santos/hashmap/dialite_datalake_main_relation_index.pickle";
    "santos/hashmap/dialite_datalake_main_triple_index.pickle";
    "santos/hashmap/dialite_datalake_synth_type_kb.pbz2";
    "santos/hashmap/dialite_datalake_synth_relation_kb.pbz2";
    "santos/hashmap/dialite_datalake_synth_type_inverted_index.pbz2";
    "santos/hashmap/dialite_datalake_synth_relation_inverted_index.pbz2" ].


(** ** The rest of the loader module *)

(** [os.path.exists] as a proposition, for statements. *)
Definition present (fs : filesystem) (path : string) : Prop :=
  exists_ fs path = true.

Global Instance present_dec fs path : Decision (present fs path).
Proof. unfold present. apply _. Defined.

Section Payloads.
Context `{Codec}.

(** Whatever the instance holds under a key is the decode of a file the
    registry declares under that key. *)
Definition payload_correct (fs : filesystem) (dir : string) (self : instance)
  : Prop :=
  ∀ key data, attrs self !! key = Some data →
    ∃ path, (path, key) ∈ load_tasks (_setup_paths dir)
            ∧ decoded fs path = inr data.

Definition heap_correct (fs : filesystem) (dir : string) (s : state) : Prop :=
  ∀ l self, heap s !! l = Some self → payload_correct fs dir self.

(** The futures a call still waits for are futures of declared tasks. *)
Definition pending_declared (dir : string) (c : pc) : Prop :=
  match c with
  | InLoop _ pending => pending ⊆ load_tasks (_setup_paths dir)
  | _ => True
  end.

Definition coherent (fs : filesystem) (dir : string)
    (cfg : state * list caller) : Prop :=
  heap_correct fs dir cfg.1
  ∧ Forall (λ c : caller,
      c.1 ⊆ load_tasks (_setup_paths dir) ∧ pending_declared dir c.2) cfg.2.

End Payloads.

(** [timing_decorator]: a function object has a name and a body that
    prints and then returns or raises; the wrapper keeps the name
    ([@wraps(func)]), calls the function, prints the timing line and
    returns the result.  No handler surrounds the call, so when the
    function raises, the line is not printed.  [timing name] is the line
    "{name} executed in ... seconds". *)
Record function (A B E T : Type) := {
  __name__ : string;
  call : A → list T * (E + B);
}.
Arguments __name__ {A B E T} _.
Arguments call {A B E T} _ _.

Definition timing_decorator {A B E T : Type} (timing : string → T)
    (func : function A B E T) : function A B E T :=
  {| __name__ := __name__ func;
     call args :=
       match call func args with
       | (out, inr result) => (out ++ [timing (__name__ func)], inr result)
       | (out, inl e) => (out, inl e)
       end |}.

(** ** The terminal front end (main_terminal.py) *)

Module Terminal.

(** [s * n] on strings. *)
Fixpoint str_mul (s : string) (n : nat) : string :=
  match n with
  | 0 => ""
  | S n' => s +:+ str_mul s n'
  end.

(** [format(s, "^width")]: the padding that is left when [s] is shorter
    than [width] is split in two, the smaller half on the left. *)
Definition center (width : nat) (s : string) : string :=
  let pad := width - String.length s in
  str_mul " " (pad / 2) +:+ s +:+ str_mul " " (pad - pad / 2).

(** The lines [print_header] prints once the screen is cleared. *)
Definition print_header (title : string) : list string :=
  [str_mul "=" 60; center 60 title; str_mul "=" 60; ""].

(** The exceptions of a selection. *)
Inductive error :=
  | ValueError (msg : string)
  | IndexError.

(** [xs[i]]: a negative index counts from the end, an index out of range
    raises [IndexError]. *)
Definition getitem {A : Type} (xs : list A) (i : Z) : error + A :=
  let n := Z.of_nat (length xs) in
  let j := if (i <? 0)%Z then (i + n)%Z else i in
  if ((j <? 0) || (n <=? j))%Z then inl IndexError
  else match xs !! Z.to_nat j with
       | Some x => inr x
       | None => inl IndexError
       end.

(** The selection of [discover_tables_workflow] and of
    [integrate_tables_workflow]: an empty list raises, then the number
    read from the user is checked and the entry taken. *)
Definition select {A : Type} (none_found : string) (xs : list A) (choice : Z)
  : error + A :=
  match xs with
  | [] => inl (ValueError none_found)
  | _ =>
      if ((choice <? 1) || (Z.of_nat (length xs) <? choice))%Z
      then inl (ValueError "Invalid selection")
      else getitem xs (choice - 1)
  end.

(** What a read of standard input meets: a line, or Ctrl-C; the end of
    the list is the end of the input. *)
Inductive key :=
  | Line (s : string)
  | CtrlC.

(** How a workflow ends: it returns, a [KeyboardInterrupt] leaves it, or
    another exception does (each workflow handles [Exception] in its body
    only, not around its last [input]). *)
Inductive handled :=
  | Returned
  | Interrupted
  | Raised (e : string).

(** The four workflows the menu calls: each reads some input and ends. *)
Record workflows := {
  generate_query_table : list key → list key * handled;
  upload_query_table : list key → list key * handled;
  discover_tables_workflow : list key → list key * handled;
  integrate_tables_workflow : list key → list key * handled;
}.

(** What the menu itself prints: the header with the five entries, and
    its three messages. *)
Inductive shown :=
  | Menu
  | Invalid      (* "Invalid choice! Please enter 1-5" *)
  | Cancelled    (* "Operation cancelled by user" *)
  | Exiting.     (* "Exiting program..." *)

(** How the menu ends. *)
Inductive ended :=
  | Exit (code : Z)
  | Uncaught (e : string).

Definition dispatch (w : workflows) (choice : string)
  : option (list key → list key * handled) :=
  if String.eqb choice "1" then Some (generate_query_table w)
  else if String.eqb choice "2" then Some (upload_query_table w)
  else if String.eqb choice "3" then Some (discover_tables_workflow w)
  else if String.eqb choice "4" then Some (integrate_tables_workflow w)
  else None.

(** [main_menu], for at most [fuel] rounds of its [while True]; [None]
    when the rounds are used up. *)
Fixpoint main_menu (w : workflows) (fuel : nat) (keys : list key)
  : list shown * option ended :=
  match fuel with
  | 0 => ([], None)
  | S fuel' =>
      match keys with
      | [] => ([Menu], Some (Uncaught "EOFError"))
      | CtrlC :: _ => ([Menu], Some (Uncaught "KeyboardInterrupt"))
      | Line choice :: rest =>
          match dispatch w choice with
          | Some workflow =>
              match workflow rest with
              | (rest', Returned) =>
                  let '(out, r) := main_menu w fuel' rest' in (Menu :: out, r)
              | (rest', Interrupted) =>
                  let '(out, r) := main_menu w fuel' rest' in
                  (Menu :: Cancelled :: out, r)
              | (rest', Raised e) => ([Menu], Some (Uncaught e))
              end
          | None =>
              if String.eqb choice "5" then ([Menu; Exiting], Some (Exit 0))
              else
                let '(out, r) := main_menu w fuel' rest in
                (Menu :: Invalid :: out, r)
          end
      end
  end.

(** No workflow puts input back: what it leaves is no longer than what it
    was given. *)
Definition consuming (w : workflows) : Prop :=
  ∀ choice workflow keys,
    dispatch w choice = Some workflow →
    (length (workflow keys).1 ≤ length keys)%nat.

(** A workflow that only waits for Enter, and a session at the menu. *)
Definition press_enter (keys : list key) : list key * handled :=
  match keys with
  | [] => ([], Raised "EOFError")
  | CtrlC :: rest => (rest, Interrupted)
  | Line _ :: rest => (rest, Returned)
  end.

Definition sample : workflows :=
  {| generate_query_table := press_enter;
     upload_query_table := press_enter;
     discover_tables_workflow := press_enter;
     integrate_tables_workflow := press_enter |}.

Definition typed : list key :=
  [Line "3"; Line ""; Line "9"; Line "1"; CtrlC; Line " 5"; Line "5"].

End Terminal.


Example basename_label :
  Py.basename (LABEL_FILE_PATH Sample.cfg) = "yago-wd-labels_dict.pickle".
Proof. reflexivity. Qed.

Example path_label :
  LABEL_FILE_PATH Sample.cfg = "/srv/dialite/yago/yago-wd-labels_dict.pickle".
Proof. reflexivity. Qed.

Example load_label_ok :
  @_load_single_dictionary Sample.codec Sample.fs_ok (LABEL_FILE_PATH Sample.cfg)
  = ([Open "/srv/dialite/yago/yago-wd-labels_dict.pickle";
      Print (Loaded "yago-wd-labels_dict.pickle" 1)],
     inr (Sample.Mapping [x01])).
Proof. vm_compute. reflexivity. Qed.

Example load_type_missing :
  @_load_single_dictionary Sample.codec Sample.fs_missing (TYPE_FILE_PATH Sample.cfg)
  = ([Print (CriticalError "yago-wd-full-types_dict.pickle"
        "File not found: /srv/dialite/yago/yago-wd-full-types_dict.pickle")],
     inl (FileNotFoundError
        "File not found: /srv/dialite/yago/yago-wd-full-types_dict.pickle")).
Proof. vm_compute. reflexivity. Qed.

(** A well-formed pickle of an object without a length is loaded, and the
    task fails at [len(data)]. *)
Example load_class_unsized :
  @_load_single_dictionary Sample.codec Sample.fs_unsized (CLASS_FILE_PATH Sample.cfg)
  = ([Open "/srv/dialite/yago/yago-wd-class_dict.pickle";
      Print (CriticalError "yago-wd-class_dict.pickle"
               "object of type 'int' has no len()")],
     inl (Exception "TypeError" "object of type 'int' has no len()")).
Proof. vm_compute. reflexivity. Qed.

(** A pickle that calls [sys.exit] leaves the task without a line. *)
Example load_label_exits :
  @_load_single_dictionary Sample.codec Sample.fs_exits (LABEL_FILE_PATH Sample.cfg)
  = ([Open "/srv/dialite/yago/yago-wd-labels_dict.pickle"], inl (SystemExit 0)).
Proof. vm_compute. reflexivity. Qed.


(** ** Strings and paths *)

Lemma append_nil_l (s : string) : "" +:+ s = s.
Proof. reflexivity. Qed.

Lemma append_cons (a : ascii) (s t : string) :
  String a s +:+ t = String a (s +:+ t).
Proof. reflexivity. Qed.

Lemma endswith_spec s suffix :
  Py.endswith s suffix = true ↔ ∃ pre, s = pre +:+ suffix.
Proof.
  induction s as [|a s IH]; cbn [Py.endswith].
  - destruct (String.eqb_spec "" suffix) as [<-|Hne].
    + split; [by exists ""|done].
    + split; [done|]. intros [[|b pre] Hpre].
      * by rewrite append_nil_l in Hpre.
      * by rewrite append_cons in Hpre.
  - destruct (String.eqb_spec (String a s) suffix) as [<-|Hne].
    + split; [by exists ""|done].
    + rewrite IH. split.
      * intros [pre ->]. by exists (String a pre).
      * intros [[|b pre] Hpre].
        -- by rewrite append_nil_l in Hpre.
        -- rewrite append_cons in Hpre. injection Hpre as _ ->. by exists pre.
Qed.

Lemma endswith_app pre suffix : Py.endswith (pre +:+ suffix) suffix = true.
Proof. apply endswith_spec. by exists pre. Qed.

Lemma append_assoc (a b c : string) : (a +:+ b) +:+ c = a +:+ (b +:+ c).
Proof.
  induction a as [|x a IH]; [done|]. by rewrite !append_cons, IH.
Qed.

Lemma append_inj_l (a b c : string) : a +:+ b = a +:+ c → b = c.
Proof.
  induction a as [|x a IH]; [done|].
  rewrite !append_cons. intros Heq. injection Heq as Heq. by apply IH.
Qed.

Lemma append_last_inj pre pre' (a b : ascii) :
  pre +:+ String a "" = pre' +:+ String b "" → a = b.
Proof.
  revert pre'. induction pre as [|x pre IH]; intros [|y pre'];
    rewrite ?append_nil_l, ?append_cons; intros Heq.
  - by injection Heq.
  - injection Heq as _ Heq. by destruct pre'.
  - injection Heq as _ Heq. by destruct pre.
  - injection Heq as _ Heq. by apply (IH pre').
Qed.

(** A name that ends in [.pbz2] does not end in [.pickle]. *)
Lemma endswith_pbz2_not_pickle s :
  Py.endswith s ".pbz2" = true → Py.endswith s ".pickle" = false.
Proof.
  intros [p1 H1]%endswith_spec.
  destruct (Py.endswith s ".pickle") eqn:E; [|done].
  apply endswith_spec in E as [p2 H2]. exfalso.
  assert (Hlast : (p1 +:+ ".pbz") +:+ "2" = (p2 +:+ ".pickl") +:+ "e").
  { rewrite !append_assoc. change (".pbz" +:+ "2") with ".pbz2".
    change (".pickl" +:+ "e") with ".pickle". congruence. }
  apply append_last_inj in Hlast. discriminate.
Qed.

(** [os.path.join] with a relative second component appends it after the
    separator. *)
Lemma path_join_rel a b :
  Py.startswith b "/" = false → Py.path_join a b = a +:+ sep_after a +:+ b.
Proof.
  intros Hb. unfold Py.path_join, sep_after. rewrite Hb.
  by destruct (String.eqb a "" || Py.endswith a "/").
Qed.

Lemma sep_after_yago x : sep_after (x +:+ "yago") = "/".
Proof.
  unfold sep_after.
  assert (String.eqb (x +:+ "yago") "" = false) as -> by by destruct x.
  destruct (Py.endswith (x +:+ "yago") "/") eqn:E; [|done].
  apply endswith_spec in E as [p Hp]. exfalso.
  change "yago" with ("yag" +:+ "o") in Hp. rewrite <-append_assoc in Hp.
  apply append_last_inj in Hp. discriminate.
Qed.

(** Every declared path is the base directory, the separator, and one of
    the eleven fixed relative paths; the keys are the accessor names. *)
Lemma load_tasks_resolved dir :
  load_tasks (_setup_paths dir)
  = zip ((λ r, dir +:+ sep_after dir +:+ r) <$> rel_paths) accessor_names.
Proof.
  unfold load_tasks, _setup_paths; cbn [LABEL_FILE_PATH TYPE_FILE_PATH
    CLASS_FILE_PATH FACT_FILE_PATH YAGO_MAIN_INVERTED_INDEX_PATH
    YAGO_MAIN_RELATION_INDEX_PATH YAGO_MAIN_PICKLE_TRIPLE_INDEX_PATH
    SYNTH_TYPE_KB_PATH SYNTH_RELATION_KB_PATH SYNTH_TYPE_INVERTED_INDEX_PATH
    SYNTH_RELATION_INVERTED_INDEX_PATH].
  rewrite !path_join_rel by reflexivity.
  rewrite <-(append_assoc dir (sep_after dir) "yago"), sep_after_yago.
  rewrite !append_assoc. reflexivity.
Qed.

Lemma load_tasks_paths dir :
  (load_tasks (_setup_paths dir)).*1
  = (λ r, dir +:+ sep_after dir +:+ r) <$> rel_paths.
Proof. by rewrite load_tasks_resolved. Qed.

Lemma load_tasks_keys p : (load_tasks p).*2 = accessor_names.
Proof. reflexivity. Qed.

Lemma accessor_names_NoDup : NoDup accessor_names.
Proof. apply (bool_decide_unpack _). by vm_compute. Qed.

Lemma rel_paths_NoDup : NoDup rel_paths.
Proof. apply (bool_decide_unpack _). by vm_compute. Qed.

Lemma load_tasks_paths_NoDup dir : NoDup (load_tasks (_setup_paths dir)).*1.
Proof.
  rewrite load_tasks_paths. apply NoDup_fmap_2; [|apply rel_paths_NoDup].
  intros r1 r2 Heq. by do 2 apply append_inj_l in Heq.
Qed.

Lemma load_tasks_NoDup dir : NoDup (load_tasks (_setup_paths dir)).
Proof. eapply NoDup_fmap_1, load_tasks_paths_NoDup. Qed.


(** ** The decoder *)

Section DecoderFacts.
Context `{Codec}.

Lemma exists_present fs path f :
  fs !! path = Some f → f ≠ Unstattable → exists_ fs path = true.
Proof. intros Hfs Hf. unfold exists_. rewrite Hfs. by destruct f. Qed.

Lemma exists_inv fs path :
  exists_ fs path = true → ∃ f, fs !! path = Some f ∧ f ≠ Unstattable.
Proof.
  unfold exists_. destruct (fs !! path) as [[]|]; try done; eauto.
Qed.

(** A path [os.path.exists] does not find is reported missing. *)
Lemma load_single_absent fs path :
  exists_ fs path = false →
  _load_single_dictionary fs path
  = ([Print (CriticalError (Py.basename path) ("File not found: " +:+ path))],
     inl (FileNotFoundError ("File not found: " +:+ path))).
Proof.
  intros Hex. unfold _load_single_dictionary, load_body. by rewrite Hex.
Qed.

(** The branch on the suffix is the decode of the format it stands for. *)
Lemma load_data_present fs path f :
  fs !! path = Some f → load_data fs path = spec_decode (dispatched path) f.
Proof.
  intros Hfs. unfold load_data, load_pickle, load_pbz2, spec_decode, dispatched.
  rewrite Hfs. by destruct (Py.endswith path ".pickle"), (stream f).
Qed.

Lemma load_single_present fs path f :
  fs !! path = Some f → f ≠ Unstattable →
  _load_single_dictionary fs path
  = match spec_decode (dispatched path) f with
    | inr data =>
        match len data with
        | inr items =>
            ([Open path; Print (Loaded (Py.basename path) items)], inr data)
        | inl e => (Open path :: critical path e, inl e)
        end
    | inl e => (Open path :: critical path e, inl e)
    end.
Proof.
  intros Hfs Hf. unfold _load_single_dictionary, load_body, critical.
  rewrite (exists_present _ _ f), (load_data_present _ _ f) by done.
  cbn [negb].
  destruct (spec_decode (dispatched path) f) as [e|data].
  - by destruct (caught e).
  - destruct (len data) as [e|items]; [|done]. by destruct (caught e).
Qed.

Lemma decoded_absent fs path :
  exists_ fs path = false →
  decoded fs path = inl (FileNotFoundError ("File not found: " +:+ path)).
Proof. intros Hex. unfold decoded. by rewrite load_single_absent. Qed.

Lemma decoded_present fs path f :
  fs !! path = Some f → f ≠ Unstattable →
  decoded fs path = measured (spec_decode (dispatched path) f).
Proof.
  intros Hfs Hf. unfold decoded, measured.
  rewrite (load_single_present _ _ f) by done.
  destruct (spec_decode (dispatched path) f) as [e|data]; [done|].
  by destruct (len data).
Qed.

(** A payload that is returned has a length. *)
Lemma decoded_sized fs path data :
  decoded fs path = inr data → ∃ items, len data = inr items.
Proof.
  destruct (exists_ fs path) eqn:Hex.
  - destruct (exists_inv _ _ Hex) as (f & Hfs & Hf).
    rewrite (decoded_present _ _ f) by done. unfold measured.
    destruct (spec_decode (dispatched path) f) as [e|d]; [done|].
    destruct (len d) as [e|items] eqn:Hlen; [done|].
    intros [= <-]. by exists items.
  - by rewrite decoded_absent.
Qed.

(** The handler of the method raises again what the body raised. *)
Lemma load_single_reraises fs path e :
  (load_body fs path).2 = inl e → decoded fs path = inl e.
Proof.
  unfold decoded, _load_single_dictionary.
  destruct (load_body fs path) as [tr [e'|d]]; cbn; [|done].
  intros [= ->]. by destruct (caught e).
Qed.

(** The trace of a task: it opens its file exactly when [os.path.exists]
    finds it, and prints one line, which tells its outcome, unless what
    it raises is outside [Exception]. *)
Lemma worker_trace fs path :
  (_load_single_dictionary fs path).1
  = (if exists_ fs path then [Open path] else [])
    ++ match decoded fs path with
       | inr data =>
           match len data with
           | inr items => [Print (Loaded (Py.basename path) items)]
           | inl _ => []
           end
       | inl e => critical path e
       end.
Proof.
  destruct (exists_ fs path) eqn:Hex.
  - destruct (exists_inv _ _ Hex) as (f & Hfs & Hf).
    rewrite (decoded_present _ _ f), (load_single_present _ _ f) by done.
    unfold measured.
    destruct (spec_decode (dispatched path) f) as [e|data]; [done|].
    destruct (len data) as [e|items] eqn:Hlen; [done|]. by rewrite Hlen.
  - by rewrite decoded_absent, load_single_absent.
Qed.

End DecoderFacts.

(** ** The batch loop *)

Section BatchFacts.
Context `{Codec}.

Lemma handle_ok fs path key self data :
  decoded fs path = inr data →
  handle fs (path, key) self
  = ([Print (Success (Py.basename path))], setattr self key data, inr ()).
Proof. unfold decoded, handle. by intros ->. Qed.

Lemma handle_err fs path key self e :
  decoded fs path = inl e →
  handle fs (path, key) self = (reported path e, self, inl (raised_by e)).
Proof.
  unfold decoded, handle, reported, raised_by. intros ->.
  by destruct (caught e).
Qed.

(** When every future returns, the loop stores each payload and ends
    normally. *)
Lemma collect_success fs order self :
  Forall (decodes fs) order →
  collect fs order self = (success_lines order, stored fs order self, inr ()).
Proof.
  revert self. induction order as [|[path key] rest IH]; intros self Hall; [done|].
  apply Forall_cons in Hall as [[d Hdec] Hrest]. cbn [fst] in Hdec.
  cbn [collect]. rewrite (handle_ok _ _ _ _ d) by done.
  rewrite IH by done. unfold stored, success_lines. cbn. by rewrite Hdec.
Qed.

(** The first future that raised ends the loop: nothing is stored after
    it, and the futures after it are not looked at. *)
Lemma collect_failure fs pre path key post self e :
  Forall (decodes fs) pre →
  decoded fs path = inl e →
  collect fs (pre ++ (path, key) :: post) self
  = (success_lines pre ++ reported path e, stored fs pre self,
     inl (raised_by e)).
Proof.
  intros Hpre Hfail. revert self.
  induction pre as [|[p k] pre IH]; intros self.
  - cbn [app collect]. by rewrite (handle_err _ _ _ _ e).
  - apply Forall_cons in Hpre as [[d Hdec] Hpre]. cbn [fst] in Hdec.
    cbn [app collect]. rewrite (handle_ok _ _ _ _ d) by done.
    rewrite IH by done. unfold stored, success_lines. cbn.
    by rewrite Hdec.
Qed.

End BatchFacts.


Section StoredFacts.
Context `{Codec}.


Lemma stored_cons fs t done self :
  stored fs (t :: done) self
  = stored fs done (match decoded fs t.1 with
                    | inr data => setattr self t.2 data
                    | inl _ => self
                    end).
Proof. reflexivity. Qed.


Lemma stored_loaded fs done self :
  _loaded (stored fs done self) = _loaded self.
Proof.
  revert self. induction done as [|t done IH]; intros self; [done|].
  rewrite stored_cons, IH. by destruct (decoded fs t.1).
Qed.

(** A key none of the handled tasks stores under is left as it was. *)
Lemma stored_lookup_other fs done self key :
  key ∉ done.*2 →
  attrs (stored fs done self) !! key = attrs self !! key.
Proof.
  revert self. induction done as [|[p k] done IH]; intros self Hnotin; [done|].
  rewrite fmap_cons, not_elem_of_cons in Hnotin. destruct Hnotin as [Hne Hnotin].
  rewrite stored_cons, IH by done. cbn in *.
  destruct (decoded fs p); [done|]. cbn. by rewrite lookup_insert_ne.
Qed.

(** A handled task that decoded left its payload under its key. *)
Lemma stored_lookup fs done self path key data :
  NoDup done.*2 → (path, key) ∈ done → decoded fs path = inr data →
  attrs (stored fs done self) !! key = Some data.
Proof.
  revert self. induction done as [|[p k] done IH]; intros self Hnd Hin Hdec.
  - by apply elem_of_nil in Hin.
  - rewrite fmap_cons in Hnd. apply NoDup_cons in Hnd as [Hk Hnd].
    rewrite stored_cons. apply elem_of_cons in Hin as [[= <- <-]|Hin].
    + cbn [fst snd]. rewrite Hdec, stored_lookup_other by done.
      cbn. by rewrite lookup_insert_eq.
    + by apply IH.
Qed.


(** Either every task decodes, or the order splits at the first one that
    does not. *)
Lemma first_failure fs (order : list task) :
  Forall (decodes fs) order ∨
  ∃ pre path key post e,
    order = pre ++ (path, key) :: post ∧ Forall (decodes fs) pre ∧
    decoded fs path = inl e.
Proof.
  induction order as [|[path key] rest IH]; [by left|].
  destruct (decoded fs path) as [e|data] eqn:Hdec.
  - right. by exists [], path, key, rest, e.
  - destruct IH as [Hall|(pre & p & k & post & e & -> & Hpre & Hfail)].
    + left. constructor; [by exists data|done].
    + right. exists ((path, key) :: pre), p, k, post, e.
      split_and!; [done| |done]. constructor; [by exists data|done].
Qed.

End StoredFacts.


(** ** The constructor and the module body *)

Section RunFacts.
Context `{Codec}.

(** The first constructor call of the process when every task returns. *)
Lemma new_success fs dir order :
  Forall (decodes fs) order →
  __new__ fs dir order init_state = (ready_state fs dir order, inr 0).
Proof.
  intros Hall. unfold __new__, _initialize, _load_all_dictionaries.
  cbn [cls_instance heap trace init_state length app lookup list_lookup _loaded
       new_instance set_paths inst_paths].
  fold (configured dir). by rewrite collect_success.
Qed.

(** The first constructor call of the process when a future raised. *)
Lemma new_failure fs dir pre path key post e :
  Forall (decodes fs) pre → decoded fs path = inl e →
  __new__ fs dir (pre ++ (path, key) :: post) init_state
  = (failed_state fs dir pre path e, inl (raised_by e)).
Proof.
  intros Hpre Hfail. unfold __new__, _initialize, _load_all_dictionaries.
  cbn [cls_instance heap trace init_state length app lookup list_lookup _loaded
       new_instance set_paths inst_paths].
  fold (configured dir). rewrite (collect_failure _ _ _ _ _ _ e) by done.
  unfold failed_state. by rewrite app_assoc.
Qed.



Lemma read_all_names self names l :
  read_all self names = inr l → l.*1 = names.
Proof.
  revert l. induction names as [|k names IH]; intros l; cbn.
  - by intros [= <-].
  - destruct (getattr self k); [done|].
    destruct (read_all self names) as [|l']; [done|].
    intros [= <-]. cbn. by rewrite (IH l').
Qed.

Lemma read_all_lookup self names l key data :
  read_all self names = inr l → (key, data) ∈ l →
  attrs self !! key = Some data.
Proof.
  revert l. induction names as [|k names IH]; intros l; cbn.
  - intros [= <-] Hin. by apply elem_of_nil in Hin.
  - unfold getattr. destruct (attrs self !! k) as [d|] eqn:Hk; [|done].
    destruct (read_all self names) as [|l']; [done|].
    intros [= <-] [[= -> ->]|Hin]%elem_of_cons; [done|]. by apply (IH l').
Qed.

Lemma read_all_ok self names :
  (∀ k, k ∈ names → is_Some (attrs self !! k)) →
  ∃ l, read_all self names = inr l.
Proof.
  induction names as [|k names IH]; intros Hall; cbn; [by eexists|].
  destruct (Hall k) as [d Hd]; [by left|]. unfold getattr. rewrite Hd.
  destruct IH as [l ->]; [|by eexists]. intros k' Hk'. apply Hall. by right.
Qed.

(** [read_all] raises exactly when a name is missing. *)
Lemma read_all_raises self names x :
  read_all self names = inl x →
  ∃ k, k ∈ names ∧ attrs self !! k = None ∧ x = AttributeError k.
Proof.
  induction names as [|k names IH]; cbn; [done|].
  unfold getattr. destruct (attrs self !! k) as [d|] eqn:Hk.
  - destruct (read_all self names) as [x'|l'] eqn:Hr; [|done].
    intros [= <-]. destruct (IH eq_refl) as (k' & Hin & Hnone & ->).
    exists k'. split_and!; [by right|done|done].
  - intros [= <-]. exists k. split_and!; [by left|done|done].
Qed.

(** After a batch in which every declared task decoded, every declared
    key holds the payload of its own file. *)
Lemma stored_all fs dir order path key data :
  order ≡ₚ load_tasks (_setup_paths dir) →
  (path, key) ∈ load_tasks (_setup_paths dir) →
  decoded fs path = inr data →
  attrs (stored fs order (configured dir)) !! key = Some data.
Proof.
  intros Hperm Hin Hdec. apply (stored_lookup _ _ _ path); [|by rewrite Hperm|done].
  rewrite Hperm, load_tasks_keys. apply accessor_names_NoDup.
Qed.

Lemma stored_fully_populated fs dir order :
  order ≡ₚ load_tasks (_setup_paths dir) → Forall (decodes fs) order →
  fully_populated (stored fs order (configured dir)).
Proof.
  intros Hperm Hall key Hkey.
  rewrite <-(load_tasks_keys (_setup_paths dir)) in Hkey.
  apply list_elem_of_fmap in Hkey as [[path k] [-> Hin]].
  assert (Hin' : (path, k) ∈ order) by by rewrite Hperm.
  destruct (proj1 (Forall_forall _ _) Hall _ Hin') as [data Hdec].
  exists data. by apply (stored_all _ _ _ path).
Qed.

(** The keys stored by a batch are keys of the tasks it handled. *)
Lemma stored_dom fs done self key :
  is_Some (attrs (stored fs done self) !! key) →
  key ∈ done.*2 ∨ is_Some (attrs self !! key).
Proof.
  destruct (decide (key ∈ done.*2)) as [|Hnotin]; [by left|].
  rewrite stored_lookup_other by done. by right.
Qed.

End RunFacts.

(** ** The codec contract *)

Lemma declared_format_dispatched path fmt :
  declared_format path = Some fmt → dispatched path = fmt.
Proof.
  unfold declared_format, dispatched.
  destruct (Py.endswith path ".pickle"); [by intros [= <-]|].
  destruct (Py.endswith path ".pbz2"); [by intros [= <-]|done].
Qed.

(** The two extensions exclude each other, so the convention is a
    function of the name whichever is tested first. *)
Lemma declared_format_pbz2 path :
  Py.endswith path ".pbz2" = true → declared_format path = Some Compressed.
Proof.
  intros Hp. unfold declared_format.
  by rewrite (endswith_pbz2_not_pickle _ Hp), Hp.
Qed.


(** ** Which files a task opens *)

Lemma opened_cons ev tr :
  opened (ev :: tr)
  = match ev with Open p => [p] | Print _ => [] end ++ opened tr.
Proof. by destruct ev. Qed.

Lemma opened_app tr1 tr2 : opened (tr1 ++ tr2) = opened tr1 ++ opened tr2.
Proof. apply omap_app. Qed.

Lemma opened_critical path e : opened (critical path e) = [].
Proof. unfold critical. by destruct (caught e). Qed.

Lemma opened_reported `{Codec} path e : opened (reported path e) = [].
Proof. unfold reported. by destruct (caught e). Qed.

Lemma opened_success_lines `{Codec} done : opened (success_lines done) = [].
Proof. induction done as [|t done IH]; [done|exact IH]. Qed.

(** A task opens its file once when [os.path.exists] finds it, and no
    file otherwise. *)
Lemma opened_worker `{Codec} fs path :
  opened (_load_single_dictionary fs path).1
  = if decide (present fs path) then [path] else [].
Proof.
  rewrite worker_trace, opened_app. unfold present.
  assert (Hlines : opened (match decoded fs path with
    | inr data =>
        match len data with
        | inr items => [Print (Loaded (Py.basename path) items)]
        | inl _ => []
        end
    | inl e => critical path e
    end) = []).
  { destruct (decoded fs path) as [e|data]; [apply opened_critical|].
    by destruct (len data). }
  rewrite Hlines, app_nil_r.
  destruct (decide (exists_ fs path = true)) as [->|Hno]; [done|].
  by destruct (exists_ fs path).
Qed.

Lemma opened_present `{Codec} fs path f :
  fs !! path = Some f → f ≠ Unstattable →
  opened (_load_single_dictionary fs path).1 = [path].
Proof.
  intros Hfs Hf. rewrite opened_worker, decide_True; [done|].
  by apply (exists_present _ _ f).
Qed.

(** A future that raised makes the loop raise. *)
Lemma collect_fails `{Codec} fs order self path key e :
  (path, key) ∈ order → decoded fs path = inl e →
  ∃ e', (collect fs order self).2 = inl (raised_by e').
Proof.
  intros Hin Hfail.
  destruct (first_failure fs order)
    as [Hall|(pre & p & k & post & e' & -> & Hpre & Hfail')].
  - destruct (proj1 (Forall_forall _ _) Hall _ Hin) as [data Hdec].
    cbn [fst] in Hdec. congruence.
  - exists e'. by rewrite (collect_failure _ _ _ _ _ _ e').
Qed.

(** C5 — Codec format dispatch: for an artifact whose name carries the
    Raw extension ([.pickle]) the statement that loads it opens the file
    and deserializes its bytes directly; for one whose name carries the
    Compressed extension ([.pbz2]) it opens the file, decompresses its
    byte stream and deserializes the decompressed bytes.  The task
    returns that payload once [len] has returned on it. *)
Theorem codec_format_dispatch `{Codec} fs path fmt f :
  fs !! path = Some f → f ≠ Unstattable → declared_format path = Some fmt →
  load_data fs path = spec_decode fmt f
  ∧ decoded fs path = measured (spec_decode fmt f)
  ∧ opened (_load_single_dictionary fs path).1 = [path].
Proof.
  intros Hfs Hf Hfmt. split_and!.
  - by rewrite (load_data_present _ _ f), (declared_format_dispatched _ fmt).
  - by rewrite (decoded_present _ _ f), (declared_format_dispatched _ fmt).
  - by apply (opened_present _ _ f).
Qed.

Lemma codec_format_dispatch_witness :
  (load_data (H:=Sample.codec) Sample.fs_ok (SYNTH_TYPE_KB_PATH Sample.cfg)
   = spec_decode Compressed (Sample.pbz2 x08)
   ∧ decoded (H:=Sample.codec) Sample.fs_ok (SYNTH_TYPE_KB_PATH Sample.cfg)
     = measured (spec_decode Compressed (Sample.pbz2 x08))
   ∧ opened (_load_single_dictionary (H:=Sample.codec) Sample.fs_ok
               (SYNTH_TYPE_KB_PATH Sample.cfg)).1
     = [SYNTH_TYPE_KB_PATH Sample.cfg])
  ∧ (load_data (H:=Sample.codec) Sample.fs_unsized (CLASS_FILE_PATH Sample.cfg)
     = spec_decode Raw (Bytes [x4b; x2a])
     ∧ decoded (H:=Sample.codec) Sample.fs_unsized (CLASS_FILE_PATH Sample.cfg)
       = measured (spec_decode Raw (Bytes [x4b; x2a]))
     ∧ opened (_load_single_dictionary (H:=Sample.codec) Sample.fs_unsized
                 (CLASS_FILE_PATH Sample.cfg)).1
       = [CLASS_FILE_PATH Sample.cfg]).
Proof.
  split.
  - apply (codec_format_dispatch (H:=Sample.codec));
      [vm_compute; reflexivity|discriminate|vm_compute; reflexivity].
  - apply (codec_format_dispatch (H:=Sample.codec));
      [vm_compute; reflexivity|discriminate|vm_compute; reflexivity].
Defined.

(** C10 (as amended) — Suffix-only dispatch: the decoder is chosen from
    the suffix of the name alone.  A path that [os.path.exists] finds is
    decoded as a raw pickle when it ends in [.pickle] and as a
    bz2-compressed pickle otherwise; its file is opened in either case,
    so nothing is rejected for its extension.  When the task fails, what
    it raises is a decode error, or the exception of the [open] or of
    the read, or the exception of [len] on the decoded object. *)
Theorem suffix_only_dispatch `{Codec} fs path f :
  fs !! path = Some f → f ≠ Unstattable →
  load_data fs path
  = spec_decode (if Py.endswith path ".pickle" then Raw else Compressed) f
  ∧ decoded fs path
    = measured
        (spec_decode (if Py.endswith path ".pickle" then Raw else Compressed) f)
  ∧ opened (_load_single_dictionary fs path).1 = [path]
  ∧ (∀ e, decoded fs path = inl e →
       decode_error fs path e
       ∨ stream f = inl e
       ∨ ∃ data, load_data fs path = inr data ∧ len data = inl e).
Proof.
  intros Hfs Hf.
  pose proof (decoded_present _ _ _ Hfs Hf) as Hdec.
  pose proof (load_data_present _ _ _ Hfs) as Hload.
  split_and!; [exact Hload|exact Hdec|by apply (opened_present _ _ f)|].
  intros e. rewrite Hdec, Hload. unfold measured, spec_decode, decode_error.
  destruct (stream f) as [e'|bs] eqn:Hstream.
  { intros [= ->]. right. by left. }
  assert (Hbs : f = Bytes bs) by (destruct f; cbn in Hstream; congruence).
  subst f. rewrite Hfs.
  destruct (dispatched path).
  - destruct (pickle_load bs) as [e'|data] eqn:Hp.
    + intros [= ->]. left. by exists bs.
    + destruct (len data) as [e'|n] eqn:Hlen; [|done].
      intros [= ->]. right. right. by exists data.
  - destruct (bz2_decompress bs) as [e'|raw] eqn:Hz.
    + intros [= ->]. left. exists bs. split; [done|]. by left.
    + destruct (pickle_load raw) as [e'|data] eqn:Hp.
      * intros [= ->]. left. exists bs. split; [done|]. right. by exists raw.
      * destruct (len data) as [e'|n] eqn:Hlen; [|done].
        intros [= ->]. right. right. by exists data.
Qed.

Lemma suffix_only_dispatch_witness :
  let raw_dat : filesystem := {[ "/data/table.dat" := Sample.raw x01 ]} in
  let bz2_dat : filesystem := {[ "/data/table.dat" := Sample.pbz2 x01 ]} in
  let bz2_pickle : filesystem := {[ "/data/table.pickle" := Sample.pbz2 x01 ]} in
  (decoded (H:=Sample.codec) raw_dat "/data/table.dat"
   = inl (Exception "OSError" "Invalid data stream")
   ∧ opened (_load_single_dictionary (H:=Sample.codec) raw_dat
               "/data/table.dat").1
     = ["/data/table.dat"])
  ∧ decoded (H:=Sample.codec) bz2_dat "/data/table.dat"
    = inr (Sample.Mapping [x01])
  ∧ decoded (H:=Sample.codec) bz2_pickle "/data/table.pickle"
    = inl (Exception "UnpicklingError" "invalid load key")
  ∧ decoded (H:=Sample.codec) Sample.fs_ok (LABEL_FILE_PATH Sample.cfg)
    = inr (Sample.Mapping [x01]).
Proof.
  intros raw_dat bz2_dat bz2_pickle. split; [|split; [|split]].
  - destruct (suffix_only_dispatch (H:=Sample.codec) raw_dat "/data/table.dat"
                (Sample.raw x01)) as (_ & Hdec & Hopen & _);
      [vm_compute; reflexivity|discriminate|].
    split; [exact Hdec|exact Hopen].
  - destruct (suffix_only_dispatch (H:=Sample.codec) bz2_dat "/data/table.dat"
                (Sample.pbz2 x01)) as (_ & Hdec & _);
      [vm_compute; reflexivity|discriminate|].
    exact Hdec.
  - destruct (suffix_only_dispatch (H:=Sample.codec) bz2_pickle
                "/data/table.pickle" (Sample.pbz2 x01)) as (_ & Hdec & _);
      [vm_compute; reflexivity|discriminate|].
    exact Hdec.
  - destruct (suffix_only_dispatch (H:=Sample.codec) Sample.fs_ok
                (LABEL_FILE_PATH Sample.cfg) (Sample.raw x01))
      as (_ & Hdec & _); [vm_compute; reflexivity|discriminate|].
    exact Hdec.
Defined.

(** The claim C10 fails as stated: a file with an unexpected extension
    that exists and cannot be opened fails with the exception of the
    [open], before a byte of it is decoded. *)
Lemma unexpected_extension_fails_at_open :
  let denied := Exception "PermissionError"
                  "[Errno 13] Permission denied: '/data/table.dat'" in
  let fs : filesystem :=
    {[ "/data/table.dat" :=
         Unreadable "PermissionError"
           "[Errno 13] Permission denied: '/data/table.dat'" ]} in
  declared_format "/data/table.dat" = None
  ∧ exists_ fs "/data/table.dat" = true
  ∧ decoded (H:=Sample.codec) fs "/data/table.dat" = inl denied
  ∧ ¬ decode_error (H:=Sample.codec) fs "/data/table.dat" denied.
Proof.
  intros denied fs. split_and!; [vm_compute; reflexivity..|].
  intros (bs & Hfs & _). vm_compute in Hfs. discriminate Hfs.
Qed.

(** C6 (as amended) — Errors of the decode: the task fails without
    opening anything exactly when [os.path.exists] does not find the
    path, which is so for an absent path and also for one that is there
    but cannot be examined, and it then raises [FileNotFoundError];
    for a path that is found, what it raises is what the [open], the
    read, the decompression, the deserialization or [len] raised.  The
    code has no error kinds of its own.  Nothing is recovered: the
    handler of the method raises the exception of the body again, and a
    future that raised makes the loop raise. *)
Theorem codec_error_taxonomy `{Codec} fs path :
  (exists_ fs path = false
   ↔ opened (_load_single_dictionary fs path).1 = [])
  ∧ (exists_ fs path = false →
       decoded fs path = inl (FileNotFoundError ("File not found: " +:+ path)))
  ∧ (fs !! path = None → exists_ fs path = false)
  ∧ (∀ f, fs !! path = Some f → f ≠ Unstattable →
       decoded fs path = measured (spec_decode (dispatched path) f))
  ∧ (∀ e, (load_body fs path).2 = inl e → decoded fs path = inl e)
  ∧ (∀ e key order self, decoded fs path = inl e → (path, key) ∈ order →
       ∃ e', (collect fs order self).2 = inl (raised_by e')).
Proof.
  split_and!.
  - rewrite opened_worker.
    destruct (decide (present fs path)) as [Hp|Hp]; unfold present in Hp.
    + by rewrite Hp.
    + by destruct (exists_ fs path).
  - apply decoded_absent.
  - intros Hfs. unfold exists_. by rewrite Hfs.
  - intros f. apply decoded_present.
  - apply load_single_reraises.
  - intros e key order self He Hin. by apply (collect_fails _ _ _ path key e).
Qed.

Lemma codec_error_taxonomy_witness :
  decoded (H:=Sample.codec) Sample.fs_missing (TYPE_FILE_PATH Sample.cfg)
  = inl (FileNotFoundError
           ("File not found: " +:+ TYPE_FILE_PATH Sample.cfg))
  ∧ decoded (H:=Sample.codec) Sample.fs_corrupt (FACT_FILE_PATH Sample.cfg)
    = measured (spec_decode (dispatched (FACT_FILE_PATH Sample.cfg)) (Bytes [])).
Proof.
  split.
  - destruct (codec_error_taxonomy (H:=Sample.codec) Sample.fs_missing
                (TYPE_FILE_PATH Sample.cfg)) as (_ & Habsent & _).
    apply Habsent. vm_compute. reflexivity.
  - destruct (codec_error_taxonomy (H:=Sample.codec) Sample.fs_corrupt
                (FACT_FILE_PATH Sample.cfg)) as (_ & _ & _ & Hfound & _).
    apply Hfound; [vm_compute; reflexivity|discriminate].
Defined.

(** The claim C6 fails as stated: a table in a directory that cannot be
    searched is there, yet the task reports it as not found; and a
    compressed artifact whose bytes are not a bz2 stream fails with an
    exception of the class of a failed read. *)
Lemma existing_path_reported_missing :
  let garbled : filesystem := {[ "/data/kb.pbz2" := Bytes [x00] ]} in
  let failing : filesystem := {[ "/data/kb.pbz2" := Failing "Input/output error" ]} in
  Sample.fs_hidden !! TYPE_FILE_PATH Sample.cfg = Some Unstattable
  ∧ decoded (H:=Sample.codec) Sample.fs_hidden (TYPE_FILE_PATH Sample.cfg)
    = inl (FileNotFoundError
             "File not found: /srv/dialite/yago/yago-wd-full-types_dict.pickle")
  ∧ ¬ ((∃ msg, decoded (H:=Sample.codec) Sample.fs_hidden
                 (TYPE_FILE_PATH Sample.cfg) = inl (FileNotFoundError msg))
       ↔ Sample.fs_hidden !! TYPE_FILE_PATH Sample.cfg = None)
  ∧ decoded (H:=Sample.codec) garbled "/data/kb.pbz2"
    = inl (Exception "OSError" "Invalid data stream")
  ∧ decoded (H:=Sample.codec) failing "/data/kb.pbz2"
    = inl (Exception "OSError" "Input/output error").
Proof.
  intros garbled failing.
  assert (Hthere : Sample.fs_hidden !! TYPE_FILE_PATH Sample.cfg
                   = Some Unstattable) by (vm_compute; reflexivity).
  assert (Hdec : decoded (H:=Sample.codec) Sample.fs_hidden
                   (TYPE_FILE_PATH Sample.cfg)
    = inl (FileNotFoundError
             "File not found: /srv/dialite/yago/yago-wd-full-types_dict.pickle"))
    by (vm_compute; reflexivity).
  split_and!; [exact Hthere|exact Hdec| |vm_compute; reflexivity..].
  intros [Hmissing _]. rewrite Hthere in Hmissing.
  assert (Hnone : Some Unstattable = @None file); [|discriminate Hnone].
  apply Hmissing. eexists. exact Hdec.
Qed.


(** ** The registry and the names it prints *)

Lemma endswith_append x y suffix :
  Py.endswith y suffix = true → Py.endswith (x +:+ y) suffix = true.
Proof.
  intros [p ->]%endswith_spec. rewrite <-append_assoc. apply endswith_app.
Qed.

Lemma declared_format_under x rel fmt :
  declared_format rel = Some fmt → declared_format (x +:+ rel) = Some fmt.
Proof.
  unfold declared_format.
  destruct (Py.endswith rel ".pickle") eqn:Hraw.
  - intros [= <-]. by rewrite endswith_append.
  - destruct (Py.endswith rel ".pbz2") eqn:Hc; [|done]. intros [= <-].
    apply declared_format_pbz2. by apply endswith_append.
Qed.

Lemma after_last_sep_append x y t :
  Py.after_last_sep y = Some t → Py.after_last_sep (x +:+ y) = Some t.
Proof.
  intros Hy. induction x as [|a x IH]; [done|].
  rewrite append_cons. cbn [Py.after_last_sep]. by rewrite IH.
Qed.

Lemma basename_append x y t :
  Py.after_last_sep y = Some t → Py.basename (x +:+ y) = t.
Proof.
  intros Hy. unfold Py.basename. by rewrite (after_last_sep_append _ _ t).
Qed.

(** Whatever the base directory, the declared paths have the eleven fixed
    file names. *)
Lemma load_tasks_base_names dir :
  Py.basename <$> (load_tasks (_setup_paths dir)).*1 = base_names.
Proof.
  rewrite load_tasks_paths. unfold rel_paths, base_names. cbn [fmap list_fmap].
  repeat (apply (f_equal2 cons);
    [by rewrite <-append_assoc; apply basename_append|]).
  done.
Qed.

Lemma base_names_NoDup : NoDup base_names.
Proof. apply (bool_decide_unpack _). by vm_compute. Qed.

(** The first seven artifacts are declared Raw, the last four Compressed. *)
Lemma load_tasks_formats dir :
  declared_format <$> (load_tasks (_setup_paths dir)).*1
  = replicate 7 (Some Raw) ++ replicate 4 (Some Compressed).
Proof.
  rewrite load_tasks_paths. unfold rel_paths. cbn [fmap list_fmap replicate app].
  repeat (apply (f_equal2 cons); [by do 2 apply declared_format_under|]).
  done.
Qed.

Lemma filter_eq_notin `{EqDecision A} (l : list A) (x : A) :
  x ∉ l → filter (λ y, y = x) l = [].
Proof.
  induction l as [|y l IH]; [done|]. intros [Hne Hnotin]%not_elem_of_cons.
  rewrite filter_cons. destruct (decide (y = x)); [congruence|by apply IH].
Qed.

(** In a list without duplicates a member occurs once. *)
Lemma count_NoDup `{EqDecision A} (l : list A) (x : A) :
  NoDup l → x ∈ l → length (filter (λ y, y = x) l) = 1.
Proof.
  induction 1 as [|y l Hy Hnd IH]; intros Hin; [by apply elem_of_nil in Hin|].
  rewrite filter_cons. destruct (decide (y = x)) as [->|Hne].
  - by rewrite filter_eq_notin.
  - apply IH. apply elem_of_cons in Hin as [->|Hin]; [done|done].
Qed.


(** ** The module body *)

Section ModuleFacts.
Context `{Codec}.

Lemma read_all_set_loaded self names :
  read_all (set_loaded self) names = read_all self names.
Proof.
  induction names as [|k names IH]; [done|]. cbn [read_all]. by rewrite IH.
Qed.


(** When every task returns, the import binds the eleven names. *)
Lemma module_body_success fs dir order :
  order ≡ₚ load_tasks (_setup_paths dir) → Forall (decodes fs) order →
  ∃ globals,
    read_all (stored fs order (configured dir)) accessor_names = inr globals
    ∧ module_body fs dir order = (ready_state fs dir order, inr (0, globals)).
Proof.
  intros Hperm Hall.
  destruct (read_all_ok (stored fs order (configured dir)) accessor_names)
    as [globals Hg]; [by apply stored_fully_populated|].
  exists globals. split; [done|]. unfold module_body.
  rewrite new_success by done. cbn [ready_state heap lookup list_lookup].
  by rewrite read_all_set_loaded, Hg.
Qed.

(** When a future raised, the import ends with what the loop raises and
    binds nothing. *)
Lemma module_body_failure fs dir pre path key post e :
  Forall (decodes fs) pre → decoded fs path = inl e →
  module_body fs dir (pre ++ (path, key) :: post)
  = (failed_state fs dir pre path e, inl (raised_by e)).
Proof.
  intros Hpre Hfail. unfold module_body.
  by rewrite (new_failure _ _ _ _ _ _ e).
Qed.


End ModuleFacts.





(** ** Traces *)

Section TraceFacts.
Context `{Codec}.

Lemma failed_lines_app tr1 tr2 :
  failed_lines (tr1 ++ tr2) = failed_lines tr1 ++ failed_lines tr2.
Proof. apply omap_app. Qed.

Lemma failed_lines_cons ev tr :
  failed_lines (ev :: tr)
  = match ev with
    | Print (Failed name msg) => [(name, msg)]
    | _ => []
    end ++ failed_lines tr.
Proof. by destruct ev as [|[]]. Qed.

(** The events of a task: it opens a file, reports a load, or reports a
    critical error. *)
Lemma worker_events fs path ev :
  ev ∈ (_load_single_dictionary fs path).1 →
  ev = Open path
  ∨ (∃ data items, decoded fs path = inr data ∧ len data = inr items
                   ∧ ev = Print (Loaded (Py.basename path) items))
  ∨ (∃ e msg, decoded fs path = inl e ∧ caught e = Some msg
              ∧ ev = Print (CriticalError (Py.basename path) msg)).
Proof.
  rewrite worker_trace. intros [Hin|Hin]%elem_of_app.
  - destruct (exists_ fs path); [|by apply elem_of_nil in Hin].
    apply list_elem_of_singleton in Hin. by left.
  - destruct (decoded fs path) as [e|data].
    + unfold critical in Hin. destruct (caught e) as [msg|] eqn:Hc;
        [|by apply elem_of_nil in Hin].
      apply list_elem_of_singleton in Hin. right. right. by exists e, msg.
    + destruct (len data) as [e|items] eqn:Hlen; [by apply elem_of_nil in Hin|].
      apply list_elem_of_singleton in Hin. right. left. by exists data, items.
Qed.

(** A task prints no "Failed to load" line: only the loop does. *)
Lemma worker_no_failed fs path :
  failed_lines (_load_single_dictionary fs path).1 = [].
Proof.
  rewrite worker_trace, failed_lines_app.
  assert (failed_lines (if exists_ fs path then [Open path] else []) = [])
    as -> by by destruct (exists_ fs path).
  destruct (decoded fs path) as [e|data].
  - unfold critical. by destruct (caught e).
  - by destruct (len data).
Qed.

Lemma workers_no_failed fs tasks : failed_lines (workers fs tasks) = [].
Proof.
  induction tasks as [|t tasks IH]; [done|].
  unfold workers in *. cbn [flat_map].
  by rewrite failed_lines_app, worker_no_failed, IH.
Qed.

Lemma success_lines_no_failed done : failed_lines (success_lines done) = [].
Proof. induction done as [|t done IH]; [done|exact IH]. Qed.

Lemma failed_lines_reported path e :
  failed_lines (reported path e)
  = match caught e with
    | Some msg => [(Py.basename path, msg)]
    | None => []
    end.
Proof. unfold reported. by destruct (caught e). Qed.

(** A failed batch prints at most one "Failed to load" line: the one for
    the first future that raised, when the handler of the loop applies to
    what it raised. *)
Lemma failed_state_lines fs dir pre path e :
  failed_lines (trace (failed_state fs dir pre path e))
  = match caught e with
    | Some msg => [(Py.basename path, msg)]
    | None => []
    end.
Proof.
  cbn [failed_state trace].
  rewrite failed_lines_cons, !failed_lines_app, workers_no_failed,
    success_lines_no_failed, failed_lines_reported.
  done.
Qed.

(** A task whose exception its handler catches prints its "Critical
    error" line. *)
Lemma worker_critical fs path e msg :
  decoded fs path = inl e → caught e = Some msg →
  Print (CriticalError (Py.basename path) msg)
  ∈ (_load_single_dictionary fs path).1.
Proof.
  intros He Hc. rewrite worker_trace, He. apply elem_of_app. right.
  unfold critical. rewrite Hc. left.
Qed.

Lemma workers_elem fs tasks path key ev :
  (path, key) ∈ tasks → ev ∈ (_load_single_dictionary fs path).1 →
  ev ∈ workers fs tasks.
Proof.
  intros Hin Hev. unfold workers. apply list_elem_of_In, in_flat_map.
  exists (path, key). split; by apply list_elem_of_In.
Qed.

Lemma workers_inv fs tasks ev :
  ev ∈ workers fs tasks →
  ∃ path key, (path, key) ∈ tasks ∧ ev ∈ (_load_single_dictionary fs path).1.
Proof.
  unfold workers. intros Hev.
  apply list_elem_of_In, in_flat_map in Hev as ([path key] & Hin & Hev).
  exists path, key. split; by apply list_elem_of_In.
Qed.

(** The lines of the loop are "Successfully loaded" and "Failed to load"
    lines. *)
Lemma success_lines_inv done ev :
  ev ∈ success_lines done → ∃ name, ev = Print (Success name).
Proof.
  unfold success_lines. intros (t & -> & _)%list_elem_of_fmap. by eexists.
Qed.

Lemma reported_inv path e ev :
  ev ∈ reported path e → ∃ name msg, ev = Print (Failed name msg).
Proof.
  unfold reported. destruct (caught e); [|by intros ?%elem_of_nil].
  intros ->%list_elem_of_singleton. by eexists _, _.
Qed.

(** What the trace of a failed first call holds. *)
Lemma failed_state_inv fs dir pre path e ev :
  ev ∈ trace (failed_state fs dir pre path e) →
  ev = Print Starting
  ∨ ev ∈ workers fs (load_tasks (_setup_paths dir))
  ∨ (∃ name, ev = Print (Success name))
  ∨ (∃ name msg, ev = Print (Failed name msg)).
Proof.
  cbn [failed_state trace]. intros [->|Hev]%elem_of_cons; [by left|].
  apply elem_of_app in Hev as [Hev|Hev]; [right; by left|].
  apply elem_of_app in Hev as [Hev|Hev].
  - right. right. left. by apply success_lines_inv in Hev.
  - right. right. right. by apply reported_inv in Hev.
Qed.

Lemma failed_state_worker fs dir pre path e p k ev :
  (p, k) ∈ load_tasks (_setup_paths dir) →
  ev ∈ (_load_single_dictionary fs p).1 →
  ev ∈ trace (failed_state fs dir pre path e).
Proof.
  intros Hin Hev. cbn [failed_state trace].
  right. apply elem_of_app. left. by apply (workers_elem _ _ p k).
Qed.

End TraceFacts.

(** Two declared tasks with the same file name are the same task. *)
Lemma base_name_determines dir p k p' k' :
  (p, k) ∈ load_tasks (_setup_paths dir) →
  (p', k') ∈ load_tasks (_setup_paths dir) →
  Py.basename p = Py.basename p' → (p, k) = (p', k').
Proof.
  assert (Hinj : ∀ (l : list task) a b,
    NoDup (Py.basename <$> l.*1) → a ∈ l → b ∈ l →
    Py.basename a.1 = Py.basename b.1 → a = b).
  { clear. induction l as [|t l IH]; intros a b Hnd Ha Hb Hab.
    - by apply elem_of_nil in Ha.
    - rewrite !fmap_cons in Hnd. apply NoDup_cons in Hnd as [Ht Hnd].
      apply elem_of_cons in Ha as [->|Ha]; apply elem_of_cons in Hb as [->|Hb].
      + done.
      + exfalso. apply Ht. rewrite Hab. rewrite <-list_fmap_compose.
        apply list_elem_of_fmap. by exists b.
      + exfalso. apply Ht. rewrite <-Hab. rewrite <-list_fmap_compose.
        apply list_elem_of_fmap. by exists a.
      + by apply IH. }
  intros Hin Hin' Hbase.
  apply (Hinj (load_tasks (_setup_paths dir))); [|done..].
  rewrite load_tasks_base_names. apply base_names_NoDup.
Qed.


Lemma read_all_elem `{Codec} self names l key data :
  read_all self names = inr l → key ∈ names → attrs self !! key = Some data →
  (key, data) ∈ l.
Proof.
  revert l. induction names as [|k names IH]; intros l; cbn.
  - intros _ Hin. by apply elem_of_nil in Hin.
  - unfold getattr. destruct (attrs self !! k) as [d|] eqn:Hk; [|done].
    destruct (read_all self names) as [|l']; [done|].
    intros [= <-] [->|Hin]%elem_of_cons Hkey.
    + replace d with data by congruence. left.
    + right. by apply IH.
Qed.

(** C8 — Registry completeness: the registry declares eleven artifacts
    (the four knowledge-base tables, the three primary indices, the four
    synthetic counterparts), each under its own key and at a path made of
    the base directory and a fixed relative path; once the constructor has
    returned, every key was stored exactly once, the instance holds
    exactly these eleven keys, and [all_dictionaries] returns exactly
    these eleven entries, each the payload of its own file. *)
Theorem registry_completeness `{Codec} dir :
  length (load_tasks (_setup_paths dir)) = 11
  ∧ (load_tasks (_setup_paths dir)).*2 = accessor_names
  ∧ NoDup (load_tasks (_setup_paths dir)).*2
  ∧ (load_tasks (_setup_paths dir)).*1
    = (λ r, dir +:+ sep_after dir +:+ r) <$> rel_paths
  ∧ declared_format <$> (load_tasks (_setup_paths dir)).*1
    = replicate 7 (Some Raw) ++ replicate 4 (Some Compressed)
  ∧ ∀ fs order s l,
      order ≡ₚ load_tasks (_setup_paths dir) →
      __new__ fs dir order init_state = (s, inr l) →
      (∀ key, key ∈ accessor_names →
         length (filter (λ k, k = key) order.*2) = 1)
      ∧ ∃ self snapshot,
          heap s !! l = Some self ∧ _loaded self = true
          ∧ (∀ key, is_Some (attrs self !! key) ↔ key ∈ accessor_names)
          ∧ all_dictionaries self = inr snapshot
          ∧ snapshot.*1 = accessor_names ∧ length snapshot = 11
          ∧ (∀ path key, (path, key) ∈ load_tasks (_setup_paths dir) →
               ∃ data, decoded fs path = inr data ∧ (key, data) ∈ snapshot).
Proof.
  split_and!.
  - reflexivity.
  - reflexivity.
  - rewrite load_tasks_keys. apply accessor_names_NoDup.
  - apply load_tasks_paths.
  - apply load_tasks_formats.
  - intros fs order s l Hperm Hnew.
    assert (Hkeys : order.*2 ≡ₚ accessor_names).
    { by rewrite Hperm, load_tasks_keys. }
    split.
    { intros key Hkey. apply count_NoDup.
      - rewrite Hkeys. apply accessor_names_NoDup.
      - by rewrite Hkeys. }
    destruct (first_failure fs order)
      as [Hall|(pre & p & k & post & e & -> & Hpre & Hfail)].
    2: { by rewrite (new_failure _ _ _ _ _ _ e) in Hnew. }
    rewrite new_success in Hnew by done. injection Hnew as <- <-.
    destruct (module_body_success fs dir order) as (snapshot & Hsnap & _);
      [done..|].
    exists (set_loaded (stored fs order (configured dir))), snapshot.
    split_and!.
    + reflexivity.
    + reflexivity.
    + intros key. cbn [attrs set_loaded]. split.
      * intros [Hin|Hold]%stored_dom; [by rewrite <-Hkeys|].
        cbn in Hold. rewrite lookup_empty in Hold. by destruct Hold.
      * by apply stored_fully_populated.
    + unfold all_dictionaries. by rewrite read_all_set_loaded.
    + by apply read_all_names in Hsnap.
    + apply read_all_names in Hsnap.
      by rewrite <-(length_fmap fst), Hsnap.
    + intros path key Hin.
      assert (Hin' : (path, key) ∈ order) by by rewrite Hperm.
      destruct (proj1 (Forall_forall _ _) Hall _ Hin') as [data Hdec].
      exists data. split; [done|].
      apply (read_all_elem _ _ _ _ _ Hsnap).
      * rewrite <-(load_tasks_keys (_setup_paths dir)).
        apply list_elem_of_fmap. by exists (path, key).
      * by apply (stored_all _ _ _ path).
Qed.

Lemma registry_completeness_witness :
  ∃ self snapshot,
    heap (__new__ (H:=Sample.codec) Sample.fs_ok Sample.dir
            (reverse Sample.in_order) init_state).1 !! 0 = Some self
    ∧ _loaded self = true
    ∧ all_dictionaries self = inr snapshot
    ∧ length snapshot = 11.
Proof.
  destruct (__new__ (H:=Sample.codec) Sample.fs_ok Sample.dir
              (reverse Sample.in_order) init_state) as [s r] eqn:Hnew.
  assert (Hr : r = inr 0).
  { apply (f_equal snd) in Hnew. vm_compute in Hnew. congruence. }
  subst r.
  destruct (registry_completeness (H:=Sample.codec) Sample.dir)
    as (_ & _ & _ & _ & _ & Hready).
  destruct (Hready Sample.fs_ok (reverse Sample.in_order) s 0)
    as (_ & self & snapshot & Hself & Hloaded & _ & Hall & _ & Hlen & _).
  - apply reverse_Permutation.
  - exact Hnew.
  - exists self, snapshot. exact (conj Hself (conj Hloaded (conj Hall Hlen))).
Defined.


(** C9 (as amended) — Failure diagnostics and termination: when a
    declared task fails, the import ends with an exception and binds no
    module-level name, while the instance is already published in
    [_instance].  What is printed and raised depends on the first future
    that raised, in the order they are yielded.  If its exception derives
    from [Exception], the loop prints exactly one "Failed to load" line,
    with the file name, which determines the artifact, and [str(e)], the
    task has printed its "Critical error" line, and the import ends with
    [SystemExit(1)].  If it does not, neither handler applies: no
    "Failed to load" line and no "Critical error" line is printed for
    the artifact, and the import ends with that exception itself. *)
Theorem failure_diagnostics `{Codec} fs dir order path0 key0 e0 :
  order ≡ₚ load_tasks (_setup_paths dir) →
  (path0, key0) ∈ load_tasks (_setup_paths dir) →
  decoded fs path0 = inl e0 →
  ∃ s pre path key post e,
    order = pre ++ (path, key) :: post
    ∧ Forall (decodes fs) pre ∧ decoded fs path = inl e
    ∧ module_body fs dir order = (s, inl (raised_by e))
    ∧ published s = Some (stored fs pre (configured dir))
    ∧ match caught e with
      | Some msg =>
          raised_by e = SystemExit 1
          ∧ failed_lines (trace s) = [(Py.basename path, msg)]
          ∧ Print (CriticalError (Py.basename path) msg) ∈ trace s
      | None =>
          raised_by e = e
          ∧ failed_lines (trace s) = []
          ∧ ∀ msg, Print (CriticalError (Py.basename path) msg) ∉ trace s
      end
    ∧ (∀ msg0, caught e0 = Some msg0 →
         Print (CriticalError (Py.basename path0) msg0) ∈ trace s)
    ∧ (Print AllLoaded ∉ trace s)
    ∧ (∀ p k, (p, k) ∈ load_tasks (_setup_paths dir) →
         Py.basename p = Py.basename path → (p, k) = (path, key)).
Proof.
  intros Hperm Hin0 Hfail0.
  destruct (first_failure fs order)
    as [Hall|(pre & path & key & post & e & -> & Hpre & Hfail)].
  { assert (Hin : (path0, key0) ∈ order) by by rewrite Hperm.
    destruct (proj1 (Forall_forall _ _) Hall _ Hin) as [d Hd].
    cbn [fst] in Hd. congruence. }
  assert (Hin : (path, key) ∈ load_tasks (_setup_paths dir)).
  { rewrite <-Hperm. apply elem_of_app. right. left. }
  exists (failed_state fs dir pre path e), pre, path, key, post, e.
  split_and!; try done.
  - by apply module_body_failure.
  - rewrite failed_state_lines. unfold raised_by.
    destruct (caught e) as [msg|] eqn:Hc.
    + split_and!; [done..|].
      apply (failed_state_worker _ _ _ _ _ path key); [done|].
      by apply (worker_critical _ _ e).
    + split_and!; [done..|]. intros msg Hev.
      apply failed_state_inv in Hev
        as [[=]|[Hev|[[name [=]]|(name & m & [=])]]].
      apply workers_inv in Hev as (p & k & Hpk & Hev).
      apply worker_events in Hev
        as [[=]|[(d & n & _ & _ & [=])|(e' & m & He' & Hc' & [= Hbase ->])]].
      symmetry in Hbase.
      pose proof (base_name_determines _ _ _ _ _ Hpk Hin Hbase) as [= -> ->].
      congruence.
  - intros msg0 Hc0.
    apply (failed_state_worker _ _ _ _ _ path0 key0); [done|].
    by apply (worker_critical _ _ e0).
  - intros Hev.
    apply failed_state_inv in Hev
      as [[=]|[Hev|[[name [=]]|(name & m & [=])]]].
    apply workers_inv in Hev as (p & k & _ & Hev).
    by apply worker_events in Hev
      as [[=]|[(d & n & _ & _ & [=])|(e' & m & _ & _ & [=])]].
  - intros p k Hpk Hbase. by apply (base_name_determines dir).
Qed.

Lemma failure_diagnostics_witness :
  ∃ s pre path key post e,
    reverse Sample.in_order = pre ++ (path, key) :: post
    ∧ module_body (H:=Sample.codec) Sample.fs_corrupt Sample.dir
        (reverse Sample.in_order) = (s, inl (raised_by e))
    ∧ published s
      = Some (stored (H:=Sample.codec) Sample.fs_corrupt pre
                (configured Sample.dir)).
Proof.
  destruct (failure_diagnostics (H:=Sample.codec) Sample.fs_corrupt Sample.dir
              (reverse Sample.in_order) (FACT_FILE_PATH Sample.cfg) "fact_dict"
              (Exception "EOFError" "Ran out of input"))
    as (s & pre & path & key & post & e & Hsplit & _ & _ & Hbody & Hcls & _).
  - apply reverse_Permutation.
  - do 3 right. left.
  - vm_compute. reflexivity.
  - exists s, pre, path, key, post, e. exact (conj Hsplit (conj Hbody Hcls)).
Defined.

(** The claim C9 fails as stated: with the label table replaced by a
    pickle that calls [sys.exit(0)], the import ends with exit status 0,
    and neither the loop nor any task has printed a diagnostic. *)
Lemma silent_exit_with_status_zero :
  let r := module_body (H:=Sample.codec) Sample.fs_exits Sample.dir
             Sample.in_order in
  decoded (H:=Sample.codec) Sample.fs_exits (LABEL_FILE_PATH Sample.cfg)
  = inl (SystemExit 0)
  ∧ r.2 = inl (SystemExit 0)
  ∧ failed_lines (trace r.1) = []
  ∧ critical_lines (trace r.1) = []
  ∧ ¬ (∃ code, code ≠ 0%Z ∧ r.2 = inl (SystemExit code)).
Proof.
  intros r.
  assert (Hr : r.2 = inl (SystemExit 0)) by (vm_compute; reflexivity).
  split_and!; [vm_compute; reflexivity|exact Hr|vm_compute; reflexivity..|].
  clearbody r. intros (code & Hcode & Hexit). congruence.
Qed.

(** ** Fail-fast batches *)

(** The keys a failed batch has stored are those of the futures that
    were handled before the one that raised. *)
Lemma stored_keys `{Codec} fs dir pre key :
  NoDup pre.*2 → Forall (decodes fs) pre →
  is_Some (attrs (stored fs pre (configured dir)) !! key) ↔ key ∈ pre.*2.
Proof.
  intros Hnd Hpre. split.
  - intros [Hin|Hold]%stored_dom; [done|].
    cbn in Hold. rewrite lookup_empty in Hold. by destruct Hold.
  - intros [[p k] [-> Hin]]%list_elem_of_fmap.
    destruct (proj1 (Forall_forall _ _) Hpre _ Hin) as [data Hdec].
    exists data. by apply (stored_lookup _ _ _ p).
Qed.

(** C1 (as amended) — Fail-fast batch: when a declared task fails, the
    constructor raises instead of returning and the import binds no
    module-level name.  What is raised depends on the first future that
    raised, in the order they are yielded: if its exception derives from
    [Exception], the loop prints one "Failed to load" line with the file
    name and [str(e)] and the constructor raises [SystemExit(1)]; if it
    does not, no such line is printed and the constructor raises that
    exception itself.  [_loaded] is never set, also not by later calls,
    which return the published instance; the payloads stored before the
    failure stay on that instance, and only those. *)
Theorem fail_fast_batch `{Codec} fs dir order path0 key0 e0 :
  order ≡ₚ load_tasks (_setup_paths dir) →
  (path0, key0) ∈ load_tasks (_setup_paths dir) →
  decoded fs path0 = inl e0 →
  ∃ pre path key post e s self,
    order = pre ++ (path, key) :: post
    ∧ Forall (decodes fs) pre ∧ decoded fs path = inl e
    ∧ __new__ fs dir order init_state = (s, inl (raised_by e))
    ∧ (module_body fs dir order).2 = inl (raised_by e)
    ∧ match caught e with
      | Some msg =>
          raised_by e = SystemExit 1
          ∧ failed_lines (trace s) = [(Py.basename path, msg)]
      | None => raised_by e = e ∧ failed_lines (trace s) = []
      end
    ∧ published s = Some self ∧ _loaded self = false
    ∧ (∀ k, is_Some (attrs self !! k) ↔ k ∈ pre.*2)
    ∧ (∀ order', __new__ fs dir order' s = (s, inr 0)).
Proof.
  intros Hperm Hin0 Hfail0.
  destruct (first_failure fs order)
    as [Hall|(pre & path & key & post & e & -> & Hpre & Hfail)].
  { assert (Hin : (path0, key0) ∈ order) by by rewrite Hperm.
    destruct (proj1 (Forall_forall _ _) Hall _ Hin) as [d Hd].
    cbn [fst] in Hd. congruence. }
  exists pre, path, key, post, e, (failed_state fs dir pre path e),
    (stored fs pre (configured dir)).
  split_and!; try done.
  - by apply new_failure.
  - by rewrite (module_body_failure _ _ _ _ _ _ e).
  - rewrite failed_state_lines. unfold raised_by. by destruct (caught e).
  - by rewrite stored_loaded.
  - intros k. apply stored_keys; [|done].
    assert (Hnd : NoDup (pre ++ (path, key) :: post).*2).
    { rewrite Hperm, load_tasks_keys. apply accessor_names_NoDup. }
    rewrite fmap_app in Hnd. by apply NoDup_app in Hnd as [? _].
Qed.

Lemma fail_fast_batch_witness :
  ∃ pre path key post e,
    Sample.in_order = pre ++ (path, key) :: post
    ∧ decoded (H:=Sample.codec) Sample.fs_missing path = inl e
    ∧ (module_body (H:=Sample.codec) Sample.fs_missing Sample.dir
         Sample.in_order).2 = inl (raised_by e).
Proof.
  destruct (fail_fast_batch (H:=Sample.codec) Sample.fs_missing Sample.dir
              Sample.in_order (TYPE_FILE_PATH Sample.cfg) "type_dict"
              (FileNotFoundError
                 "File not found: /srv/dialite/yago/yago-wd-full-types_dict.pickle"))
    as (pre & path & key & post & e & s & self & Hsplit & _ & Hfail & _ & Hbody & _).
  - reflexivity.
  - right. left.
  - vm_compute. reflexivity.
  - exists pre, path, key, post, e. exact (conj Hsplit (conj Hfail Hbody)).
Defined.

(** The claim C1 fails as stated: with the entity-type table removed and
    the future of the label table yielded before its own, the constructor
    raises [SystemExit(1)], yet the instance it published keeps the label
    table: a later call returns it, and reading [label_dict] gives the
    payload. *)
Lemma key_readable_after_failed_load :
  let r := __new__ (H:=Sample.codec) Sample.fs_missing Sample.dir
             Sample.in_order init_state in
  r.2 = inl (SystemExit 1)
  ∧ (__new__ (H:=Sample.codec) Sample.fs_missing Sample.dir
       Sample.in_order r.1).2 = inr 0
  ∧ get r.1 "label_dict" = Some (inr (Sample.Mapping [x01]))
  ∧ get r.1 "class_dict" = Some (inl (AttributeError "class_dict"))
  ∧ ¬ (∀ key, key ∈ accessor_names → ∀ data, get r.1 key ≠ Some (inr data)).
Proof.
  intros r. split_and!; [vm_compute; reflexivity..|].
  intros Hnone.
  apply (Hnone "label_dict" ltac:(left) (Sample.Mapping [x01])).
  vm_compute. reflexivity.
Qed.


(** ** The thread pool *)

Section PoolFacts.
Context `{Codec}.

Lemma job_split {A} (js : list A) i x :
  js !! i = Some x →
  ∃ l1 l2, js = l1 ++ x :: l2 ∧ length l1 = i
           ∧ ∀ y, <[i := y]> js = l1 ++ y :: l2.
Proof.
  intros Hi. exists (take i js), (drop (S i) js).
  pose proof (lookup_lt_Some _ _ _ Hi) as Hlt.
  split_and!.
  - by rewrite take_drop_middle.
  - rewrite length_take. lia.
  - intros y. by apply insert_take_drop.
Qed.

Lemma forallb_eq_true {A} (f : A → bool) l :
  forallb f l = true ↔ Forall (λ x, f x = true) l.
Proof.
  induction l as [|x l IH]; cbn; [by split|].
  rewrite andb_true_iff, IH, Forall_cons. done.
Qed.

(** The loop over a list of futures that is handled in two parts. *)
Lemma collect_app fs a b self :
  collect fs (a ++ b) self
  = match collect fs a self with
    | (tr, s, inr _) =>
        let '(tr', s', r) := collect fs b s in (tr ++ tr', s', r)
    | (tr, s, inl x) => (tr, s, inl x)
    end.
Proof.
  revert self. induction a as [|t a IH]; intros self; cbn [app collect].
  - by destruct (collect fs b self) as [[tr s] r].
  - destruct (handle fs t self) as [[tr1 s1] [x|u]]; [done|].
    rewrite IH. destruct (collect fs a s1) as [[tr2 s2] [x|u']]; [done|].
    destruct (collect fs b s2) as [[tr3 s3] r]. by rewrite app_assoc.
Qed.

Lemma collect_snoc fs order t self :
  (collect fs order self).2 = inr () →
  collect fs (order ++ [t]) self
  = ((collect fs order self).1.1 ++ (handle fs t (collect fs order self).1.2).1.1,
     (handle fs t (collect fs order self).1.2).1.2,
     (handle fs t (collect fs order self).1.2).2).
Proof.
  intros Hok. rewrite collect_app.
  destruct (collect fs order self) as [[tr s] [x|u]]; [done|]. cbn [fst snd collect].
  destruct (handle fs t s) as [[tr1 s1] [x|[]]]; [done|]. cbn.
  by rewrite app_nil_r.
Qed.

Lemma collect_fail_app fs a b self x :
  (collect fs a self).2 = inl x → collect fs (a ++ b) self = collect fs a self.
Proof.
  intros Hfail. rewrite collect_app.
  by destruct (collect fs a self) as [[tr s] [x'|u]].
Qed.

Lemma collect_ok_inv fs order self :
  (collect fs order self).2 = inr () → Forall (decodes fs) order.
Proof.
  intros Hok.
  destruct (first_failure fs order)
    as [Hall|(pre & p & k & post & e & -> & Hpre & Hfail)]; [done|].
  by rewrite (collect_failure _ _ _ _ _ _ e) in Hok.
Qed.

Lemma handle_ok_inv fs t self :
  (handle fs t self).2 = inr () →
  ∃ data, decoded fs t.1 = inr data
          ∧ handle fs t self
            = ([Print (Success (Py.basename t.1))], setattr self t.2 data, inr ()).
Proof.
  destruct t as [path key]. cbn [fst snd].
  destruct (decoded fs path) as [e|data] eqn:Hdec.
  - by rewrite (handle_err _ _ _ _ e).
  - intros _. exists data. by rewrite (handle_ok _ _ _ _ data).
Qed.

Lemma handle_err_inv fs t self x :
  (handle fs t self).2 = inl x →
  ∃ e, decoded fs t.1 = inl e ∧ x = raised_by e
       ∧ handle fs t self = (reported t.1 e, self, inl (raised_by e)).
Proof.
  destruct t as [path key]. cbn [fst snd].
  destruct (decoded fs path) as [e|data] eqn:Hdec.
  - rewrite (handle_err _ _ _ _ e) by done. intros [= <-]. by exists e.
  - by rewrite (handle_ok _ _ _ _ data).
Qed.

(** What a step of the pool does: nothing; or a worker takes its job
    one step further; or the main thread handles a finished future; or
    it leaves the loop; or it leaves the [with] block with the exception
    that is on its way. *)
Lemma pool_step_cases fs p a :
  pool_step fs p a = p
  ∨ (∃ i t pr pr' evs,
       pool_jobs p !! i = Some (t, pr)
       ∧ pool_step fs p a = set_job p i t pr' evs
       ∧ todo_of fs (t, pr) = evs ++ todo_of fs (t, pr')
       ∧ is_finished pr = false ∧ is_yielded pr' = false
       ∧ is_queued pr' = false ∧ (rank pr ≤ rank pr')%nat
       ∧ (pr = Queued → may_start (pool_jobs p) i = true))
  ∨ (∃ i t,
       pool_main p = Looping ∧ pool_jobs p !! i = Some (t, Done)
       ∧ pool_step fs p a
         = {| pool_jobs := <[i := (t, Yielded)]> (pool_jobs p);
              pool_order := pool_order p ++ [t];
              pool_main := match (handle fs t (pool_self p)).2 with
                           | inr _ => Looping
                           | inl x => Unwinding x
                           end;
              pool_self := (handle fs t (pool_self p)).1.2;
              pool_out := pool_out p ++ (handle fs t (pool_self p)).1.1 |})
  ∨ (pool_main p = Looping
     ∧ Forall (λ j : task * progress, is_yielded j.2 = true) (pool_jobs p)
     ∧ pool_step fs p a = set_main p (Exited (inr ())) [Print AllLoaded])
  ∨ (∃ x, pool_main p = Unwinding x
          ∧ Forall (λ j : task * progress, is_finished j.2 = true) (pool_jobs p)
          ∧ pool_step fs p a = set_main p (Exited (inl x)) []).
Proof.
  destruct a as [i|i|]; cbn [pool_step].
  - destruct (pool_jobs p !! i) as [[t [|[|ev todo]| |]]|] eqn:Hi;
      try (by left).
    + destruct (may_start (pool_jobs p) i) eqn:Hstart; [|by left].
      right. left.
      exists i, t, Queued, (Running (_load_single_dictionary fs t.1).1), [].
      split_and!; try done. cbn. lia.
    + right. left. exists i, t, (Running []), Done, [].
      split_and!; try done. cbn. lia.
    + right. left. exists i, t, (Running (ev :: todo)), (Running todo), [ev].
      split_and!; done.
  - destruct (pool_main p) eqn:Hmain; try (by left).
    destruct (pool_jobs p !! i) as [[t []]|] eqn:Hi; try (by left).
    right. right. left. exists i, t. split_and!; [done..|].
    by destruct (handle fs t (pool_self p)) as [[tr s] r].
  - destruct (pool_main p) as [|x|r] eqn:Hmain; [| |by left].
    + destruct (forallb _ _) eqn:Hall; [|by left].
      right. right. right. left. split_and!; [done| |done].
      by apply forallb_eq_true in Hall.
    + destruct (forallb _ _) eqn:Hall; [|by left].
      do 4 right. exists x. split_and!; [done| |done].
      by apply forallb_eq_true in Hall.
Qed.

(** Replacing the progress of a job. *)
Lemma jobs_inv_update fs tasks p p' i t pr pr' :
  jobs_inv fs tasks p →
  pool_jobs p !! i = Some (t, pr) →
  pool_jobs p' = <[i := (t, pr')]> (pool_jobs p) →
  Forall (λ ev, by_main ev = false) (todo_of fs (t, pr')) →
  is_queued pr' = false →
  (pr = Queued → may_start (pool_jobs p) i = true) →
  jobs_inv fs tasks p'.
Proof.
  intros (Htasks & Htodo & Hfifo) Hi Hjobs Hnew Hnq Hstart.
  unfold jobs_inv. rewrite Hjobs.
  pose proof (lookup_lt_Some _ _ _ Hi) as Hlt.
  split_and!.
  - rewrite list_fmap_insert. cbn [fst]. rewrite list_insert_id; [done|].
    by rewrite list_lookup_fmap, Hi.
  - by apply Forall_insert.
  - intros a b ta tb prb Hab Ha Hb.
    destruct (decide (a = i)) as [->|Hai].
    { rewrite list_lookup_insert_eq in Ha by done.
      injection Ha as -> ->. discriminate Hnq. }
    rewrite list_lookup_insert_ne in Ha by done.
    destruct (decide (b = i)) as [->|Hbi].
    + exfalso. pose proof (Hfifo a i ta t pr Hab Ha Hi) as Hq.
      specialize (Hstart Hq). unfold may_start in Hstart.
      apply andb_true_iff in Hstart as [Hbefore _].
      apply forallb_eq_true in Hbefore.
      assert (Htake : take i (pool_jobs p) !! a = Some (ta, Queued))
        by by rewrite lookup_take_lt.
      by pose proof (Forall_lookup_1 _ _ _ _ Hbefore Htake).
    + rewrite list_lookup_insert_ne in Hb by done.
      by apply (Hfifo a b ta tb).
Qed.

Lemma worker_not_main fs path :
  Forall (λ ev, by_main ev = false) (_load_single_dictionary fs path).1.
Proof.
  apply Forall_forall. intros ev Hev.
  by apply worker_events in Hev
    as [->|[(d & n & _ & _ & ->)|(e & m & _ & _ & ->)]].
Qed.

Lemma jobs_inv_step fs tasks p a :
  jobs_inv fs tasks p → jobs_inv fs tasks (pool_step fs p a).
Proof.
  intros Hinv.
  destruct (pool_step_cases fs p a)
    as [->|[(i & t & pr & pr' & evs & Hi & -> & Htodo & _ & _ & Hnq & _ & Hstart)
       |[(i & t & Hmain & Hi & ->)|[(_ & _ & ->)|(x & _ & _ & ->)]]]];
    [done| | |done|done].
  - apply (jobs_inv_update fs tasks p _ i t pr pr'); [done..| |done|done].
    destruct Hinv as (_ & Hall & _).
    pose proof (Forall_lookup_1 _ _ _ _ Hall Hi) as Hold. cbn beta in Hold.
    rewrite Htodo in Hold. by apply Forall_app in Hold as [_ ?].
  - by apply (jobs_inv_update fs tasks p _ i t Done Yielded).
Qed.

(** The jobs marked as yielded, when the progress of one job changes. *)
Lemma yielded_update (js : list (task * progress)) i t pr pr' :
  js !! i = Some (t, pr) → is_yielded pr = false →
  (filter (λ j : task * progress, is_yielded j.2 = true)
     (<[i := (t, pr')]> js)).*1
  ≡ₚ (if is_yielded pr' then [t] else [])
     ++ (filter (λ j : task * progress, is_yielded j.2 = true) js).*1.
Proof.
  intros Hi Hny. destruct (job_split _ _ _ Hi) as (l1 & l2 & -> & _ & ->).
  rewrite !filter_app, !filter_cons. cbn [snd].
  rewrite (decide_False (P := is_yielded pr = true)) by congruence.
  destruct (is_yielded pr') eqn:Hy.
  - rewrite decide_True by done. rewrite !fmap_app, fmap_cons. cbn [fst app].
    by rewrite <-Permutation_middle.
  - by rewrite decide_False by congruence.
Qed.

Lemma finished_not_yielded pr : is_finished pr = false → is_yielded pr = false.
Proof. by destruct pr. Qed.

Lemma loop_inv_step fs self0 p a :
  loop_inv fs self0 p → loop_inv fs self0 (pool_step fs p a).
Proof.
  intros (Horder & Hself & Hout & Hlast & Hfin & Hyld).
  destruct (pool_step_cases fs p a)
    as [->|[(i & t & pr & pr' & evs & Hi & -> & _ & Hnf & Hny & _ & _ & _)
       |[(i & t & Hmain & Hi & ->)
       |[(Hmain & Hall & ->)|(x & Hmain & Hall & ->)]]]];
    [done| | | |]; unfold loop_inv;
    cbn [set_job set_main pool_jobs pool_order pool_main pool_self pool_out].
  - assert (Hnot : ∀ r, pool_main p ≠ Exited r).
    { intros r Hr. specialize (Hfin r Hr).
      pose proof (Forall_lookup_1 _ _ _ _ Hfin Hi) as Hf. cbn in Hf. congruence. }
    split_and!; try done.
    + rewrite (yielded_update _ _ _ pr) by (by try apply finished_not_yielded).
      by rewrite Hny.
    + intros r Hr. by destruct (Hnot r).
    + intros Hr. by destruct (Hnot (inr ())).
  - rewrite Hmain in Hout. cbn [outcome] in Hout.
    rewrite (collect_snoc _ _ _ _ Hout). cbn [fst snd]. rewrite Hself.
    split_and!.
    + rewrite (yielded_update _ _ _ Done) by done. cbn.
      by rewrite <-Horder, (comm (++)).
    + done.
    + by destruct (handle fs t (pool_self p)).2 as [x|[]].
    + intros x Hx. by exists (pool_order p), t.
    + intros r. by destruct (handle fs t (pool_self p)).2.
    + by destruct (handle fs t (pool_self p)).2.
  - rewrite Hmain in Hout, Hlast. split_and!; try done.
    intros r _. eapply Forall_impl; [exact Hall|].
    intros [t pr] Hy. by destruct pr.
  - rewrite Hmain in Hout, Hlast. by split_and!.
Qed.

Lemma todo_update fs (js : list (task * progress)) i t pr pr' evs :
  js !! i = Some (t, pr) → todo_of fs (t, pr) = evs ++ todo_of fs (t, pr') →
  flat_map (todo_of fs) js
  ≡ₚ evs ++ flat_map (todo_of fs) (<[i := (t, pr')]> js).
Proof.
  intros Hi Htodo. destruct (job_split _ _ _ Hi) as (l1 & l2 & -> & _ & ->).
  rewrite !flat_map_app. cbn [flat_map]. rewrite Htodo, <-!app_assoc.
  by rewrite (Permutation_app_swap_app (flat_map (todo_of fs) l1) evs).
Qed.

Lemma trace_inv_step fs tasks self0 p a :
  loop_inv fs self0 p → trace_inv fs tasks self0 p →
  trace_inv fs tasks self0 (pool_step fs p a).
Proof.
  intros (_ & Hself & Hout & _) Htr. unfold trace_inv in *.
  destruct (pool_step_cases fs p a)
    as [->|[(i & t & pr & pr' & evs & Hi & -> & Htodo & _)
       |[(i & t & Hmain & Hi & ->)
       |[(Hmain & Hall & ->)|(x & Hmain & Hall & ->)]]]];
    [done| | | |]; cbn [set_job set_main pool_jobs pool_order pool_main
                        pool_self pool_out].
  - rewrite <-Htr, (todo_update fs (pool_jobs p) i t pr pr' evs) by done.
    by rewrite app_assoc.
  - rewrite Hmain in Hout, Htr. cbn [outcome closing] in Hout, Htr.
    rewrite (collect_snoc _ _ _ _ Hout). cbn [fst snd].
    rewrite <-(todo_update fs (pool_jobs p) i t Done Yielded []) by done. cbn [app].
    assert (Hclose : closing (match (handle fs t (pool_self p)).2 with
                              | inr _ => Looping
                              | inl x => Unwinding x
                              end) = []) by by destruct (handle _ _ _).2.
    rewrite Hclose, !app_nil_r in *.
    set (tr := (handle fs t (collect fs (pool_order p) self0).1.2).1.1).
    assert (Htr' : (handle fs t (pool_self p)).1.1 = tr).
    { subst tr. by rewrite Hself. }
    rewrite Htr'. rewrite <-app_assoc, (comm (++) tr), app_assoc, Htr.
    by rewrite !app_comm_cons, <-!app_assoc.
  - rewrite Hmain in Htr. cbn [closing] in *. rewrite app_nil_r in Htr.
    by rewrite <-app_assoc, (comm (++) [Print AllLoaded]), app_assoc, Htr,
      !app_comm_cons, <-!app_assoc.
  - rewrite Hmain in Htr. cbn [closing] in *. by rewrite app_nil_r.
Qed.

End PoolFacts.


Section PoolRuns.
Context `{Codec}.

Lemma pool_run_app fs s1 s2 p :
  pool_run fs (s1 ++ s2) p = pool_run fs s2 (pool_run fs s1 p).
Proof. apply foldl_app. Qed.

Lemma todo_queued fs tasks :
  flat_map (todo_of fs) ((λ t : task, (t, Queued)) <$> tasks) = workers fs tasks.
Proof.
  induction tasks as [|t tasks IH]; [done|].
  cbn [fmap list_fmap flat_map]. unfold workers in *. cbn [flat_map].
  by rewrite <-IH.
Qed.

Lemma filter_none {A} (P : A → Prop) `{∀ x, Decision (P x)} (l : list A) :
  Forall (λ x, ¬ P x) l → filter P l = [].
Proof.
  induction 1 as [|x l Hx Hl IH]; [done|].
  by rewrite filter_cons_False.
Qed.

Lemma queued_tasks (tasks : list task) :
  ((λ t : task, (t, Queued)) <$> tasks).*1 = tasks.
Proof.
  induction tasks as [|t tasks IH]; [done|]. cbn. by rewrite IH.
Qed.

(** The pool right after the submission of the tasks. *)
Lemma submit_inv fs tasks self0 : pool_inv fs tasks self0 (submit tasks self0).
Proof.
  split_and!; cbn [submit pool_jobs pool_order pool_main pool_self pool_out].
  - split_and!.
    + apply queued_tasks.
    + cbn. apply Forall_fmap, Forall_forall. intros t _. apply worker_not_main.
    + cbn. intros i j ti tj pr _ _ Hj. rewrite list_lookup_fmap in Hj.
      destruct (tasks !! j); cbn in Hj; congruence.
  - split_and!; cbn; try done.
    rewrite filter_none; [done|].
    apply Forall_fmap, Forall_forall. by intros t _.
  - unfold trace_inv. cbn. by rewrite todo_queued, app_nil_r.
Qed.

Lemma pool_inv_step fs tasks self0 p a :
  pool_inv fs tasks self0 p → pool_inv fs tasks self0 (pool_step fs p a).
Proof.
  intros (Hjobs & Hloop & Htrace). split_and!.
  - by apply jobs_inv_step.
  - by apply loop_inv_step.
  - by apply trace_inv_step.
Qed.

Lemma pool_inv_run fs tasks self0 schedule p :
  pool_inv fs tasks self0 p → pool_inv fs tasks self0 (pool_run fs schedule p).
Proof.
  revert p. induction schedule as [|a schedule IH]; intros p Hinv; [done|].
  apply IH. by apply pool_inv_step.
Qed.

Lemma main_lines_app tr1 tr2 :
  main_lines (tr1 ++ tr2) = main_lines tr1 ++ main_lines tr2.
Proof. apply filter_app. Qed.

Lemma main_lines_workers tr :
  Forall (λ ev, by_main ev = false) tr → main_lines tr = [].
Proof.
  intros Hall. apply filter_none. eapply Forall_impl; [exact Hall|].
  intros ev Hev. cbn in *. congruence.
Qed.

(** Once a failure is reported, no step stores anything, handles a
    future or prints a line of the loop. *)
Lemma stopped_step fs tasks x p a :
  jobs_inv fs tasks p → stopped x p →
  stopped x (pool_step fs p a)
  ∧ pool_self (pool_step fs p a) = pool_self p
  ∧ pool_order (pool_step fs p a) = pool_order p
  ∧ main_lines (pool_out (pool_step fs p a)) = main_lines (pool_out p).
Proof.
  intros (_ & Htodo & _) Hstop.
  destruct (pool_step_cases fs p a)
    as [->|[(i & t & pr & pr' & evs & Hi & -> & Hsplit & _)
       |[(i & t & Hmain & Hi & ->)
       |[(Hmain & Hall & ->)|(x' & Hmain & Hall & ->)]]]];
    [done| | | |].
  - split_and!; [done..|]. cbn [set_job pool_out].
    rewrite main_lines_app, (main_lines_workers evs), app_nil_r; [done|].
    pose proof (Forall_lookup_1 _ _ _ _ Htodo Hi) as Hold. cbn beta in Hold.
    rewrite Hsplit in Hold. by apply Forall_app in Hold as [? _].
  - destruct Hstop as [Hs|Hs]; congruence.
  - destruct Hstop as [Hs|Hs]; congruence.
  - split_and!; [|done..|cbn; by rewrite app_nil_r].
    right. cbn. destruct Hstop as [Hs|Hs]; congruence.
Qed.

Lemma stopped_run fs tasks x schedule p :
  jobs_inv fs tasks p → stopped x p →
  stopped x (pool_run fs schedule p)
  ∧ pool_self (pool_run fs schedule p) = pool_self p
  ∧ pool_order (pool_run fs schedule p) = pool_order p
  ∧ main_lines (pool_out (pool_run fs schedule p)) = main_lines (pool_out p).
Proof.
  revert p. induction schedule as [|a schedule IH]; intros p Hjobs Hstop; [done|].
  destruct (stopped_step fs tasks x p a) as (Hs & Hself & Horder & Hlines);
    [done..|].
  destruct (IH (pool_step fs p a)) as (Hs' & Hself' & Horder' & Hlines');
    [by apply jobs_inv_step|done|].
  change (pool_run fs (a :: schedule) p)
    with (pool_run fs schedule (pool_step fs p a)).
  split_and!; [done|congruence..].
Qed.

(** No step takes a job back. *)
Lemma progress_step fs p a i t pr :
  pool_jobs p !! i = Some (t, pr) →
  ∃ pr', pool_jobs (pool_step fs p a) !! i = Some (t, pr')
         ∧ (rank pr ≤ rank pr')%nat.
Proof.
  intros Hi.
  assert (Hupd : ∀ i0 t0 pr0 pr0',
    pool_jobs p !! i0 = Some (t0, pr0) → (rank pr0 ≤ rank pr0')%nat →
    ∃ pr', <[i0 := (t0, pr0')]> (pool_jobs p) !! i = Some (t, pr')
           ∧ (rank pr ≤ rank pr')%nat).
  { intros i0 t0 pr0 pr0' Hi0 Hrank. destruct (decide (i0 = i)) as [->|Hne].
    - rewrite list_lookup_insert_eq by by eapply lookup_lt_Some.
      exists pr0'. split; congruence.
    - rewrite list_lookup_insert_ne by done. by exists pr. }
  destruct (pool_step_cases fs p a)
    as [->|[(i0 & t0 & pr0 & pr0' & evs & Hi0 & -> & _ & _ & _ & _ & Hrank & _)
       |[(i0 & t0 & Hmain & Hi0 & ->)
       |[(_ & _ & ->)|(x & _ & _ & ->)]]]].
  - by exists pr.
  - by apply (Hupd i0 t0 pr0).
  - apply (Hupd i0 t0 Done); [done|]. cbn. lia.
  - by exists pr.
  - by exists pr.
Qed.

Lemma progress_run fs schedule p i t pr :
  pool_jobs p !! i = Some (t, pr) →
  ∃ pr', pool_jobs (pool_run fs schedule p) !! i = Some (t, pr')
         ∧ (rank pr ≤ rank pr')%nat.
Proof.
  revert p pr. induction schedule as [|a schedule IH]; intros p pr Hi.
  - by exists pr.
  - destruct (progress_step fs p a i t pr Hi) as (pr1 & Hi1 & Hle1).
    destruct (IH _ _ Hi1) as (pr2 & Hi2 & Hle2).
    exists pr2. split; [done|lia].
Qed.

Lemma finished_todo fs (js : list (task * progress)) :
  Forall (λ j, is_finished j.2 = true) js → flat_map (todo_of fs) js = [].
Proof.
  induction 1 as [|[t pr] js Hpr Hjs IH]; [done|].
  cbn [flat_map]. rewrite IH. by destruct pr.
Qed.

(** A pool that has left the method has done what
    [_load_all_dictionaries] does for the futures in the order they were
    yielded: the same instance, the same result, and the same events up
    to their order across threads. *)
Lemma pool_exit fs p0 self0 p r :
  inst_paths self0 = Some p0 →
  pool_inv fs (load_tasks p0) self0 p → pool_main p = Exited r →
  ∃ order tr,
    order ≡ₚ load_tasks p0
    ∧ pool_order p `prefix_of` order
    ∧ _load_all_dictionaries fs order self0 = (tr, pool_self p, r)
    ∧ pool_out p ≡ₚ tr.
Proof.
  intros Hpaths ((Htasks & _) & (Horder & Hself & Hout & Hlast & Hfin & Hyld)
                 & Htrace) Hmain.
  unfold trace_inv in Htrace.
  rewrite (finished_todo fs _ (Hfin r Hmain)), app_nil_r in Htrace.
  rewrite Hmain in Hout, Htrace. cbn [outcome] in Hout.
  unfold _load_all_dictionaries. rewrite Hpaths.
  destruct r as [x|[]].
  - set (rest := (filter (λ j : task * progress, ¬ is_yielded j.2 = true)
                    (pool_jobs p)).*1).
    exists (pool_order p ++ rest),
      (Print Starting :: workers fs (load_tasks p0)
         ++ (collect fs (pool_order p) self0).1.1).
    split_and!.
    + rewrite Horder. subst rest.
      by rewrite <-fmap_app, filter_app_complement, Htasks.
    + by exists rest.
    + rewrite (collect_fail_app _ _ _ _ x) by done.
      destruct (collect fs (pool_order p) self0) as [[tr s] r'] eqn:Hc.
      cbn in Hout, Hself. by subst r' s.
    + rewrite Htrace. cbn [closing]. by rewrite app_nil_r.
  - exists (pool_order p),
      (Print Starting :: workers fs (load_tasks p0)
         ++ (collect fs (pool_order p) self0).1.1 ++ [Print AllLoaded]).
    split_and!.
    + rewrite Horder. rewrite <-Htasks.
      specialize (Hyld Hmain). f_equiv.
      clear -Hyld. induction Hyld as [|j js Hj Hjs IH]; [done|].
      by rewrite filter_cons_True, IH.
    + done.
    + destruct (collect fs (pool_order p) self0) as [[tr s] r'] eqn:Hc.
      cbn in Hout, Hself. by subst r' s.
    + by rewrite Htrace.
Qed.

(** A worker that is given the steps takes its job to its end. *)
Lemma work_running fs p k t todo :
  pool_jobs p !! k = Some (t, Running todo) →
  pool_run fs (replicate (S (length todo)) (Work k)) p = set_job p k t Done todo.
Proof.
  revert p. induction todo as [|ev todo IH]; intros p Hk.
  - cbn [length replicate pool_run foldl pool_step]. by rewrite Hk.
  - change (pool_run fs (replicate (S (length (ev :: todo))) (Work k)) p)
      with (pool_run fs (replicate (S (length todo)) (Work k))
              (pool_step fs p (Work k))).
    assert (pool_step fs p (Work k) = set_job p k t (Running todo) [ev]) as ->
      by (cbn [pool_step]; by rewrite Hk).
    rewrite IH.
    + unfold set_job. cbn. by rewrite list_insert_insert_eq, <-app_assoc.
    + cbn [set_job pool_jobs]. apply list_lookup_insert_eq.
      by eapply lookup_lt_Some.
Qed.

Lemma work_finished fs p k t pr n :
  pool_jobs p !! k = Some (t, pr) → is_finished pr = true →
  pool_run fs (replicate n (Work k)) p = p.
Proof.
  intros Hk Hfin. induction n as [|n IH]; [done|].
  cbn [replicate pool_run foldl pool_step]. rewrite Hk.
  destruct pr; try done; exact IH.
Qed.

Lemma finish_job_run fs p k t pr :
  pool_jobs p !! k = Some (t, pr) →
  (pr = Queued → may_start (pool_jobs p) k = true) →
  ∃ pr', is_finished pr' = true
         ∧ pool_jobs (pool_run fs (finish_job fs k (t, pr)) p)
           = <[k := (t, pr')]> (pool_jobs p)
         ∧ pool_main (pool_run fs (finish_job fs k (t, pr)) p) = pool_main p.
Proof.
  intros Hk Hstart. unfold finish_job.
  pose proof (lookup_lt_Some _ _ _ Hk) as Hlt.
  destruct pr as [|todo| |].
  - exists Done. cbn [todo_of snd fst Nat.add].
    change (pool_run fs
              (replicate (S (S (length (_load_single_dictionary fs t.1).1)))
                 (Work k)) p)
      with (pool_run fs
              (replicate (S (length (_load_single_dictionary fs t.1).1)) (Work k))
              (pool_step fs p (Work k))).
    assert (pool_step fs p (Work k)
            = set_job p k t (Running (_load_single_dictionary fs t.1).1) []) as ->
      by (cbn [pool_step]; by rewrite Hk, Hstart).
    rewrite (work_running _ _ _ t).
    + cbn. by rewrite list_insert_insert_eq.
    + cbn. by apply list_lookup_insert_eq.
  - exists Done. cbn [todo_of snd Nat.add].
    rewrite replicate_S_end, pool_run_app, (work_running _ _ _ t) by done.
    cbn [pool_run foldl pool_step set_job pool_jobs].
    by rewrite list_lookup_insert_eq.
  - exists Done. rewrite (work_finished _ _ _ t Done) by done.
    by rewrite list_insert_id.
  - exists Yielded. rewrite (work_finished _ _ _ t Yielded) by done.
    by rewrite list_insert_id.
Qed.

Lemma may_start_front fs tasks p l1 t l2 :
  jobs_inv fs tasks p → pool_jobs p = l1 ++ (t, Queued) :: l2 →
  Forall (λ j : task * progress, is_finished j.2 = true) l1 →
  may_start (pool_jobs p) (length l1) = true.
Proof.
  intros (_ & _ & Hfifo) Hjobs Hl1. unfold may_start.
  apply andb_true_iff. split.
  - apply forallb_eq_true. rewrite Hjobs, take_app_length.
    eapply Forall_impl; [exact Hl1|]. intros [t' pr] Hpr. by destruct pr.
  - apply bool_decide_eq_true. rewrite filter_none; [cbn; unfold max_workers; lia|].
    rewrite Hjobs. apply Forall_app. split.
    + eapply Forall_impl; [exact Hl1|]. intros [t' pr] Hpr. by destruct pr.
    + apply Forall_cons. split; [done|].
      apply Forall_lookup. intros j [tj pr] Hj. cbn.
      assert (Hk : pool_jobs p !! length l1 = Some (t, Queued)).
      { rewrite Hjobs. by apply list_lookup_middle. }
      assert (Hj' : pool_jobs p !! (length l1 + S j) = Some (tj, pr)).
      { rewrite Hjobs, lookup_app_r by lia.
        replace (length l1 + S j - length l1) with (S j) by lia. done. }
      rewrite (Hfifo (length l1) (length l1 + S j) t tj pr); [done|lia|done..].
Qed.

Lemma finish_from_run fs tasks l2 :
  ∀ p l1,
    jobs_inv fs tasks p → pool_jobs p = l1 ++ l2 →
    Forall (λ j : task * progress, is_finished j.2 = true) l1 →
    Forall (λ j : task * progress, is_finished j.2 = true)
      (pool_jobs (pool_run fs (finish_from fs (length l1) l2) p))
    ∧ pool_main (pool_run fs (finish_from fs (length l1) l2) p) = pool_main p.
Proof.
  induction l2 as [|[t pr] l2 IH]; intros p l1 Hinv Hjobs Hl1.
  - cbn. by rewrite Hjobs, app_nil_r.
  - cbn [finish_from]. rewrite pool_run_app.
    assert (Hk : pool_jobs p !! length l1 = Some (t, pr)).
    { rewrite Hjobs. by apply list_lookup_middle. }
    destruct (finish_job_run fs p (length l1) t pr Hk) as (pr' & Hfin & Hjobs' & Hmain').
    { intros ->. by apply (may_start_front fs tasks p l1 t l2). }
    set (p1 := pool_run fs (finish_job fs (length l1) (t, pr)) p) in *.
    assert (Hsplit : pool_jobs p1 = (l1 ++ [(t, pr')]) ++ l2).
    { rewrite Hjobs', Hjobs, <-app_assoc. cbn [app].
      rewrite insert_app_r_alt by lia.
      by replace (length l1 - length l1) with 0 by lia. }
    destruct (IH p1 (l1 ++ [(t, pr')])) as [Hall Hmain].
    + clear -Hinv. subst p1. generalize (finish_job fs (length l1) (t, pr)).
      intros schedule. revert p Hinv.
      induction schedule as [|a schedule IHs]; intros p Hinv; [done|].
      apply IHs. by apply jobs_inv_step.
    + done.
    + apply Forall_app. split; [done|]. by apply Forall_singleton.
    + rewrite length_app in Hall, Hmain. cbn [length] in Hall, Hmain.
      replace (length l1 + 1) with (S (length l1)) in Hall, Hmain by lia.
      split; [done|congruence].
Qed.

(** The wait of [__exit__] ends: when the workers are given the steps,
    every job comes to its end and the exception leaves the method. *)
Lemma finish_all_exits fs tasks p x :
  jobs_inv fs tasks p → pool_main p = Unwinding x →
  pool_main (pool_run fs (finish_all fs p) p) = Exited (inl x).
Proof.
  intros Hinv Hmain. unfold finish_all. rewrite pool_run_app.
  destruct (finish_from_run fs tasks (pool_jobs p) p []) as [Hall Hmain'];
    [done..|].
  cbn [length] in Hall, Hmain'.
  cbn [pool_run foldl pool_step]. rewrite Hmain', Hmain.
  apply forallb_eq_true in Hall. by rewrite Hall.
Qed.

End PoolRuns.


Section PoolTheorems.
Context `{Codec}.

Lemma exited_run fs schedule p r :
  pool_main p = Exited r → pool_main (pool_run fs schedule p) = Exited r.
Proof.
  revert p. induction schedule as [|a schedule IH]; intros p Hmain; [done|].
  apply IH.
  destruct (pool_step_cases fs p a)
    as [->|[(i & t & pr & pr' & evs & _ & -> & _)
       |[(i & t & Hloop & _)|[(Hloop & _)|(x & Hunw & _)]]]];
    [done|done|congruence..].
Qed.

Lemma stopped_exits fs tasks p x :
  jobs_inv fs tasks p → stopped x p →
  pool_main (pool_run fs (finish_all fs p) p) = Exited (inl x).
Proof.
  intros Hinv [Hmain|Hmain].
  - by apply (finish_all_exits fs tasks).
  - by apply exited_run.
Qed.

Lemma opened_perm tr1 tr2 : tr1 ≡ₚ tr2 → opened tr1 ≡ₚ opened tr2.
Proof.
  induction 1 as [|ev tr1 tr2 _ IH|ev1 ev2 tr|tr1 tr2 tr3 _ IH1 _ IH2].
  - done.
  - rewrite !opened_cons. by rewrite IH.
  - rewrite !opened_cons, !app_assoc. f_equiv. apply (comm (++)).
  - by rewrite IH1.
Qed.

Lemma filter_present_singleton fs path :
  filter (present fs) [path] = if decide (present fs path) then [path] else [].
Proof. rewrite filter_cons. by destruct (decide (present fs path)). Qed.

(** The workers open the files of their tasks that [os.path.exists]
    finds. *)
Lemma opened_workers fs tasks :
  opened (workers fs tasks) = filter (present fs) tasks.*1.
Proof.
  induction tasks as [|[path key] tasks IH]; [done|].
  unfold workers in *. cbn [flat_map fmap list_fmap fst].
  rewrite opened_app, IH, opened_worker.
  change (path :: tasks.*1) with ([path] ++ tasks.*1).
  by rewrite filter_app, filter_present_singleton.
Qed.

(** The loop opens nothing. *)
Lemma opened_collect fs order self : opened (collect fs order self).1.1 = [].
Proof.
  revert self. induction order as [|[path key] order IH]; intros self; [done|].
  cbn [collect]. destruct (decoded fs path) as [e|data] eqn:Hdec.
  - rewrite (handle_err _ _ _ _ e) by done. apply opened_reported.
  - rewrite (handle_ok _ _ _ _ data) by done. specialize (IH (setattr self key data)).
    by destruct (collect fs order (setattr self key data)) as [[tr s] r].
Qed.

End PoolTheorems.

(** ** What happens to the sibling tasks *)

(** C3 (as amended) — First failure, thread by thread and under every
    schedule of the workers and the main thread.  When a future raised,
    the loop stops there: the instance keeps exactly what was stored for
    the futures handled before it, and from then on nothing is stored, no
    further future is handled and the main thread prints no line.
    Nothing is cancelled: no job is taken back, the main thread leaves
    the method only when every submitted task has run to its end, each
    task having opened its file if [os.path.exists] finds it, and with
    the exception the loop raised; and it does leave it once the workers
    have run. *)
Theorem failure_stops_loop_not_siblings `{Codec} fs tasks self0
    sched1 sched2 x (p1 p2 : pool) :
  p1 = pool_run fs sched1 (submit tasks self0) →
  p2 = pool_run fs sched2 p1 →
  pool_main p1 = Unwinding x →
  (∃ pre path key e,
     pool_order p1 = pre ++ [(path, key)]
     ∧ Forall (decodes fs) pre ∧ decoded fs path = inl e ∧ x = raised_by e
     ∧ pool_self p1 = stored fs pre self0)
  ∧ pool_self p2 = pool_self p1
  ∧ pool_order p2 = pool_order p1
  ∧ main_lines (pool_out p2) = main_lines (pool_out p1)
  ∧ (∀ i t pr, pool_jobs p1 !! i = Some (t, pr) →
       ∃ pr', pool_jobs p2 !! i = Some (t, pr') ∧ (rank pr ≤ rank pr')%nat)
  ∧ (∀ r, pool_main p2 = Exited r →
       r = inl x
       ∧ Forall (λ j : task * progress, is_finished j.2 = true) (pool_jobs p2)
       ∧ opened (pool_out p2) ≡ₚ filter (present fs) tasks.*1)
  ∧ pool_main (pool_run fs (finish_all fs p2) p2) = Exited (inl x).
Proof.
  intros Hp1 Hp2 Hmain.
  assert (Hinv1 : pool_inv fs tasks self0 p1).
  { subst p1. apply pool_inv_run, submit_inv. }
  assert (Hinv2 : pool_inv fs tasks self0 p2).
  { subst p2. by apply pool_inv_run. }
  assert (Hstop1 : stopped x p1) by by left.
  destruct (stopped_run fs tasks x sched2 p1)
    as (Hstop2 & Hself & Horder & Hlines); [apply Hinv1|done|].
  rewrite <-Hp2 in Hstop2, Hself, Horder, Hlines.
  split_and!; [|done|done|done| | |].
  - destruct Hinv1 as (_ & (_ & Hs & Hout & Hlast & _) & _).
    rewrite Hmain in Hout, Hlast. cbn [outcome] in Hout, Hlast.
    destruct (Hlast x eq_refl) as (pre & [path key] & Hsplit & Hpre).
    pose proof (collect_ok_inv _ _ _ Hpre) as Hall.
    rewrite Hsplit, (collect_snoc _ _ _ _ Hpre) in Hout, Hs. cbn [fst snd] in Hout, Hs.
    destruct (handle_err_inv _ _ _ _ Hout) as (e & Hdec & -> & Hhandle).
    exists pre, path, key, e. split_and!; [done..|].
    rewrite Hhandle in Hs. cbn [fst snd] in Hs.
    by rewrite collect_success in Hs.
  - intros i t pr Hi. subst p2. by apply progress_run.
  - intros r Hr. destruct Hinv2 as (_ & (_ & _ & _ & _ & Hfin & _) & Htrace).
    split_and!.
    + destruct Hstop2 as [Hs|Hs]; congruence.
    + by apply (Hfin r).
    + unfold trace_inv in Htrace.
      rewrite (finished_todo fs _ (Hfin r Hr)), app_nil_r in Htrace.
      rewrite (opened_perm _ _ Htrace), opened_cons, !opened_app.
      rewrite opened_workers, opened_collect. cbn [app].
      assert (opened (closing (pool_main p2)) = []) as ->
        by by destruct (pool_main p2) as [| |[|[]]].
      by rewrite !app_nil_r.
  - apply (stopped_exits fs tasks); [apply Hinv2|done].
Qed.

Lemma failure_stops_loop_not_siblings_witness :
  let p1 := pool_run (H:=Sample.codec) Sample.fs_missing
              Sample.label_then_type
              (submit Sample.in_order (configured Sample.dir)) in
  let p2 := pool_run (H:=Sample.codec) Sample.fs_missing
              [Work 2; Work 2; Work 4] p1 in
  pool_main p1 = Unwinding (SystemExit 1)
  ∧ pool_order p1
    = [(LABEL_FILE_PATH Sample.cfg, "label_dict");
       (TYPE_FILE_PATH Sample.cfg, "type_dict")]
  ∧ pool_self p2 = pool_self p1
  ∧ pool_main (pool_run Sample.fs_missing (finish_all Sample.fs_missing p2) p2)
    = Exited (inl (SystemExit 1)).
Proof.
  intros p1 p2.
  assert (Hmain : pool_main p1 = Unwinding (SystemExit 1))
    by (vm_compute; reflexivity).
  assert (Horder : pool_order p1
                   = [(LABEL_FILE_PATH Sample.cfg, "label_dict");
                      (TYPE_FILE_PATH Sample.cfg, "type_dict")])
    by (vm_compute; reflexivity).
  destruct (failure_stops_loop_not_siblings (H:=Sample.codec) Sample.fs_missing
              Sample.in_order (configured Sample.dir) Sample.label_then_type
              [Work 2; Work 2; Work 4] (SystemExit 1) p1 p2
              eq_refl eq_refl Hmain)
    as (_ & Hself & _ & _ & _ & _ & Hexit).
  exact (conj Hmain (conj Horder (conj Hself Hexit))).
Defined.

(** The claim C3 fails as stated: with the entity-type table removed, the
    first four tasks start, the task of the missing table fails and the
    loop reports it while three tasks are on their workers and seven
    wait in the queue, none of which has opened a file yet; after the
    report the task of the label table opens and loads its file, and a
    task leaves the queue and opens its file.  No task is stopped. *)
Lemma siblings_run_after_failure :
  let p1 := pool_run (H:=Sample.codec) Sample.fs_missing
              Sample.type_fails_early
              (submit Sample.in_order (configured Sample.dir)) in
  let p2 := pool_run (H:=Sample.codec) Sample.fs_missing
              [Work 0; Work 0; Work 4; Work 4] p1 in
  pool_main p1 = Unwinding (SystemExit 1)
  ∧ failed_lines (pool_out p1)
    = [("yago-wd-full-types_dict.pickle",
        "File not found: /srv/dialite/yago/yago-wd-full-types_dict.pickle")]
  ∧ opened (pool_out p1) = []
  ∧ (λ j : task * progress, rank j.2) <$> pool_jobs p1
    = [1; 3; 1; 1; 0; 0; 0; 0; 0; 0; 0]
  ∧ opened (after_failure (pool_out p2))
    = [LABEL_FILE_PATH Sample.cfg; YAGO_MAIN_INVERTED_INDEX_PATH Sample.cfg]
  ∧ (λ j : task * progress, rank j.2) <$> pool_jobs p2
    = [1; 3; 1; 1; 1; 0; 0; 0; 0; 0; 0]
  ∧ opened (after_failure (pool_out p2)) ≠ [].
Proof.
  intros p1 p2. split_and!; [vm_compute; reflexivity..|].
  vm_compute. discriminate.
Qed.


(** ** One-time initialization *)


(** Whether the batch fails or not, what the first constructor call
    opens are the declared files that [os.path.exists] finds. *)
Lemma trace_opened `{Codec} fs dir order :
  opened (trace (__new__ fs dir order init_state).1)
  = filter (present fs) (load_tasks (_setup_paths dir)).*1.
Proof.
  destruct (first_failure fs order)
    as [Hall|(pre & path & key & post & e & -> & Hpre & Hfail)].
  - rewrite new_success by done. cbn [fst ready_state trace].
    rewrite opened_cons, !opened_app, opened_workers, opened_success_lines.
    cbn [opened omap app]. by rewrite app_nil_r.
  - rewrite (new_failure _ _ _ _ _ _ e) by done. cbn [fst failed_state trace].
    rewrite opened_cons, !opened_app, opened_workers, opened_success_lines,
      opened_reported.
    cbn [app]. by rewrite app_nil_r.
Qed.

(** A task that returns has found its file. *)
Lemma decodes_present `{Codec} fs path data :
  decoded fs path = inr data → present fs path.
Proof.
  intros Hdec. unfold present. destruct (exists_ fs path) eqn:Hex; [done|].
  by rewrite decoded_absent in Hdec.
Qed.





(** ** Interleaved calls *)

Section InvariantFacts.
Context `{Codec}.

Lemma lookup_store s l l' x old :
  heap s !! l = Some old →
  heap (store s l x) !! l' = if decide (l = l') then Some x else heap s !! l'.
Proof.
  intros Hold. cbn [store heap]. destruct (decide (l = l')) as [<-|Hne].
  - apply list_lookup_insert_eq. by eapply lookup_lt_Some.
  - by apply list_lookup_insert_ne.
Qed.

Lemma grows_refl s : grows s s.
Proof. intros l inst Hl. by exists inst. Qed.

Lemma grows_store s l old x :
  heap s !! l = Some old →
  (∀ k, is_Some (attrs old !! k) → is_Some (attrs x !! k)) →
  grows s (store s l x).
Proof.
  intros Hold Hmono l' inst Hl'. rewrite (lookup_store _ _ _ _ old) by done.
  destruct (decide (l = l')) as [<-|Hne]; [|by exists inst].
  exists x. split; [done|]. by replace inst with old by congruence.
Qed.

Lemma flag_sound_store s l old x :
  flag_sound s → heap s !! l = Some old →
  (_loaded x = true → fully_populated x) → flag_sound (store s l x).
Proof.
  intros Hflag Hold Hx l' inst. rewrite (lookup_store _ _ _ _ old) by done.
  destruct (decide (l = l')) as [<-|Hne]; [by intros [= <-]|apply Hflag].
Qed.

Lemma grows_log s s' tr : grows s s' → grows s (log s' tr).
Proof. intros Hgrow. exact Hgrow. Qed.

Lemma flag_sound_log s tr : flag_sound s → flag_sound (log s tr).
Proof. intros Hflag. exact Hflag. Qed.

Lemma pc_inv_log s tr c : pc_inv s c → pc_inv (log s tr) c.
Proof. by destruct c. Qed.

Lemma pc_inv_grows s s' c : grows s s' → pc_inv s c → pc_inv s' c.
Proof.
  intros Hgrow. destruct c as [| | |self pending|self| |r]; try done.
  - intros (inst & Hself & Hkeys).
    destruct (Hgrow _ _ Hself) as (inst' & Hself' & Hmono).
    exists inst'. split; [done|]. intros k Hk.
    destruct (Hkeys k Hk) as [Hsome|Hin]; [left; by apply Hmono|by right].
  - intros (inst & Hself & Hfull).
    destruct (Hgrow _ _ Hself) as (inst' & Hself' & Hmono).
    exists inst'. split; [done|]. intros k Hk. by apply Hmono, Hfull.
Qed.

(** A step of a call keeps every instance and the soundness of the flag,
    and establishes what its next position needs. *)
Lemma step_inv fs dir order s c s' c' :
  order ≡ₚ load_tasks (_setup_paths dir) → flag_sound s → pc_inv s c →
  step fs dir order s c = (s', c') →
  grows s s' ∧ flag_sound s' ∧ pc_inv s' c'.
Proof.
  intros Hperm Hflag Hpc.
  destruct c as [| | |self pending|self| |r]; cbn [step].
  - intros [= <- <-]. split_and!; [apply grows_refl|done|].
    by destruct (cls_instance s).
  - intros [= <- <-]. split_and!; [| |done].
    + intros l inst Hl. exists inst. split; [|done].
      by apply lookup_app_l_Some.
    + intros l inst Hl Hloaded. cbn [heap] in Hl.
      apply lookup_snoc_Some in Hl as [[_ Hl]|[_ <-]]; [by apply (Hflag l)|done].
  - destruct (cls_instance s) as [self|];
      [|intros [= <- <-]; split_and!; [apply grows_refl|done|done]].
    destruct (heap s !! self) as [inst|] eqn:Hself;
      [|intros [= <- <-]; split_and!; [apply grows_refl|done|done]].
    destruct (_loaded inst) eqn:Hloaded;
      [intros [= <- <-]; split_and!; [apply grows_refl|done|done]|].
    intros [= <- <-]. split_and!.
    + by apply grows_log, (grows_store _ _ inst).
    + apply flag_sound_log, (flag_sound_store _ _ inst); [done..|].
      cbn. congruence.
    + apply pc_inv_log. exists (set_paths inst (_setup_paths dir)). split.
      * rewrite (lookup_store _ _ _ _ inst) by done. by rewrite decide_True.
      * intros k Hk. right. by rewrite Hperm, load_tasks_keys.
  - destruct Hpc as (inst & Hself & Hkeys). destruct pending as [|[path key] rest].
    + intros [= <- <-].
      split_and!; [apply grows_log, grows_refl|by apply flag_sound_log|].
      apply pc_inv_log. exists inst. split; [done|]. intros k Hk.
      destruct (Hkeys k Hk) as [|Hin]; [done|by apply elem_of_nil in Hin].
    + rewrite Hself. destruct (decoded fs path) as [e|d] eqn:Hdec.
      * rewrite (handle_err _ _ _ _ e) by done. intros [= <- <-].
        split_and!; [by apply grows_log, (grows_store _ _ inst)| |done].
        apply flag_sound_log, (flag_sound_store _ _ inst); [done..|].
        by apply (Hflag self).
      * rewrite (handle_ok _ _ _ _ d) by done. intros [= <- <-].
        assert (Hmono : ∀ k, is_Some (attrs inst !! k) →
                             is_Some (attrs (setattr inst key d) !! k)).
        { intros k Hk. cbn. destruct (decide (key = k)) as [->|Hne].
          - by rewrite lookup_insert_eq.
          - by rewrite lookup_insert_ne. }
        split_and!.
        -- by apply grows_log, (grows_store _ _ inst).
        -- apply flag_sound_log, (flag_sound_store _ _ inst); [done..|].
           intros Hloaded k Hk. by apply Hmono, (Hflag self inst).
        -- apply pc_inv_log. exists (setattr inst key d). split.
           ++ rewrite (lookup_store _ _ _ _ inst) by done.
              by rewrite decide_True.
           ++ intros k Hk. destruct (Hkeys k Hk) as [Hsome|Hin];
                [left; by apply Hmono|].
              rewrite fmap_cons in Hin. apply elem_of_cons in Hin as [->|Hin];
                [left|by right].
              cbn. by rewrite lookup_insert_eq.
  - destruct Hpc as (inst & Hself & Hfull). rewrite Hself. intros [= <- <-].
    split_and!; [by apply (grows_store _ _ inst)| |done].
    by apply (flag_sound_store _ _ inst).
  - destruct (cls_instance s); intros [= <- <-];
      split_and!; [apply grows_refl|done|done|apply grows_refl|done|done].
  - intros [= <- <-]. split_and!; [apply grows_refl|done|done].
Qed.

Lemma sched_step_well_formed fs dir cfg i :
  well_formed dir cfg → well_formed dir (sched_step fs dir cfg i).
Proof.
  destruct cfg as [s cs]. intros [Hflag Hcs]. unfold sched_step.
  destruct (cs !! i) as [[order c]|] eqn:Hi; [|by split].
  destruct (step fs dir order s c) as [s' c'] eqn:Hstep.
  destruct (proj1 (Forall_lookup _ _) Hcs _ _ Hi) as [Hperm Hpc].
  destruct (step_inv _ _ _ _ _ _ _ Hperm Hflag Hpc Hstep)
    as (Hgrow & Hflag' & Hpc').
  split; [done|]. cbn [fst snd]. apply Forall_insert; [|done].
  eapply Forall_impl; [exact Hcs|]. intros [o c0] [Ho Hc0].
  split; [done|]. by apply (pc_inv_grows s).
Qed.

Lemma run_well_formed fs dir schedule cfg :
  well_formed dir cfg → well_formed dir (run fs dir schedule cfg).
Proof.
  revert cfg. induction schedule as [|i schedule IH]; intros cfg Hwf; [done|].
  apply IH. by apply sched_step_well_formed.
Qed.

End InvariantFacts.

(** ** A call on its own is the constructor *)

Section Refinement.
Context `{Codec}.

Lemma run_alone_finished n fs dir order s r :
  run_alone n fs dir order s (Finished r) = (s, Finished r).
Proof. induction n as [|n IH]; [done|]. cbn [run_alone step]. exact IH. Qed.

Lemma run_alone_add n m fs dir order s c :
  run_alone (n + m) fs dir order s c
  = run_alone m fs dir order (run_alone n fs dir order s c).1
      (run_alone n fs dir order s c).2.
Proof.
  revert s c. induction n as [|n IH]; intros s c; [done|].
  cbn [Nat.add run_alone]. apply IH.
Qed.

Lemma store_id s l inst : heap s !! l = Some inst → store s l inst = s.
Proof.
  intros Hl. destruct s as [cls hp tr]. unfold store. cbn in *.
  by rewrite list_insert_id.
Qed.

Lemma log_nil s : log s [] = s.
Proof. destruct s as [cls hp tr]. unfold log. cbn. by rewrite app_nil_r. Qed.

Lemma log_store_merge s l a b tr1 tr2 :
  log (store (log (store s l a) tr1) l b) tr2 = log (store s l b) (tr1 ++ tr2).
Proof.
  unfold log, store. cbn. by rewrite list_insert_insert_eq, app_assoc.
Qed.

(** The steps of the loop, run without a switch, are [collect]. *)
Lemma run_alone_loop fs dir order self pending s inst :
  heap s !! self = Some inst →
  run_alone (length pending) fs dir order s (InLoop self pending)
  = match collect fs pending inst with
    | (tr, inst', inr _) => (log (store s self inst') tr, InLoop self [])
    | (tr, inst', inl x) => (log (store s self inst') tr, Finished (inl x))
    end.
Proof.
  revert s inst. induction pending as [|t rest IH]; intros s inst Hself.
  - cbn [length run_alone collect]. by rewrite store_id, log_nil.
  - cbn [length run_alone step collect]. rewrite Hself.
    destruct (handle fs t inst) as [[tr1 inst1] [x|[]]]; cbn [fst snd].
    + by rewrite run_alone_finished.
    + rewrite (IH _ inst1).
      2: { cbn [log heap]. rewrite (lookup_store _ _ _ _ inst) by done.
           by rewrite decide_True. }
      destruct (collect fs rest inst1) as [[tr2 inst2] [x|[]]];
        by rewrite log_store_merge.
Qed.

(** A call that no other call interrupts behaves as [__new__]. *)
Lemma run_alone_new fs dir order s k :
  run_alone (length order + 6 + k) fs dir order s AtCheck
  = ((__new__ fs dir order s).1, Finished (__new__ fs dir order s).2).
Proof.
  unfold __new__. destruct (cls_instance s) as [l|] eqn:Hcls.
  - replace (length order + 6 + k) with (2 + (length order + 4 + k)) by lia.
    rewrite run_alone_add. cbn [run_alone step Nat.add fst snd].
    rewrite Hcls. cbn [fst snd step]. rewrite Hcls. apply run_alone_finished.
  - replace (length order + 6 + k) with (3 + (length order + (3 + k))) by lia.
    rewrite run_alone_add.
    set (s1 := {| cls_instance := Some (length (heap s));
                  heap := heap s ++ [new_instance];
                  trace := trace s |}).
    assert (Hs1 : heap s1 !! length (heap s) = Some new_instance)
      by by apply list_lookup_middle.
    assert (Hthree : run_alone 3 fs dir order s AtCheck
      = (log (store s1 (length (heap s)) (configured dir))
           (Print Starting :: workers fs (load_tasks (_setup_paths dir))),
         InLoop (length (heap s)) order)).
    { cbn [run_alone step]. rewrite Hcls. cbn [fst snd step].
      fold s1. cbn [cls_instance s1]. fold s1. rewrite Hs1. done. }
    rewrite Hthree. cbn [fst snd]. rewrite run_alone_add.
    rewrite (run_alone_loop _ _ _ _ _ _ (configured dir)).
    2: { cbn [log heap]. rewrite (lookup_store _ _ _ _ new_instance) by done.
         by rewrite decide_True. }
    unfold _initialize. fold s1. rewrite Hs1. cbn [_loaded new_instance].
    fold (configured dir). unfold _load_all_dictionaries.
    cbn [configured set_paths inst_paths]. fold (configured dir).
    destruct (collect fs order (configured dir)) as [[tr inst'] [x|[]]];
      cbn [fst snd].
    + rewrite run_alone_finished. f_equal.
      unfold log, store, s1. cbn.
      by rewrite list_insert_insert_eq, <-app_assoc.
    + rewrite log_store_merge.
      assert (Hl : ∀ t1 t2,
                heap (log (log (store s1 (length (heap s)) inst') t1) t2)
                !! length (heap s) = Some inst').
      { intros t1 t2. cbn [log heap].
        rewrite (lookup_store _ _ _ _ new_instance) by done.
        by rewrite decide_True. }
      cbn [Nat.add run_alone step fst snd]. rewrite Hl. cbn [fst snd step].
      clear Hl Hs1 Hthree. subst s1. cbn [cls_instance store log fst snd].
      rewrite run_alone_finished. f_equal.
      unfold store, log. cbn [cls_instance heap trace]. f_equal.
      * by rewrite list_insert_insert_eq.
      * by rewrite <-!app_assoc.
Qed.
End Refinement.

(** ** Who can see a partly loaded instance *)

(** One caller scheduled at every step is a call on its own. *)
Lemma run_single `{Codec} n fs dir order s c :
  run fs dir (replicate n 0) (s, [(order, c)])
  = ((run_alone n fs dir order s c).1,
     [(order, (run_alone n fs dir order s c).2)]).
Proof.
  revert s c. induction n as [|n IH]; intros s c; [done|].
  cbn [replicate run foldl sched_step lookup list_lookup].
  destruct (step fs dir order s c) as [s' c'] eqn:Hstep.
  cbn [insert list_insert]. fold (run fs dir (replicate n 0) (s', [(order, c')])).
  rewrite IH. cbn [run_alone]. by rewrite Hstep.
Qed.


(** C2 (as amended) — Visibility of the loaded cache: under every
    interleaving of constructor calls, at every step, an instance whose
    [_loaded] flag is set holds a payload for every declared key; and an
    import during which no other thread calls the constructor either
    ends with an exception, binding nothing, or binds the eleven
    module-level names from an instance that is marked loaded and holds
    all of them.  (The instance itself is published in [_instance] before
    the load starts, so a caller of the constructor can be handed it
    with only some of the keys, and a call that overlaps with another
    can be handed the instance of the other.) *)
Theorem loaded_flag_sound `{Codec} fs dir schedule (callers : list caller) order :
  Forall (λ c : caller,
    c.1 ≡ₚ load_tasks (_setup_paths dir) ∧ c.2 = AtCheck) callers →
  order ≡ₚ load_tasks (_setup_paths dir) →
  flag_sound (run fs dir schedule (init_state, callers)).1
  ∧ match module_body fs dir order with
    | (s, inr (l, globals)) =>
        globals.*1 = accessor_names
        ∧ ∃ self, heap s !! l = Some self ∧ _loaded self = true
                  ∧ fully_populated self
                  ∧ ∀ key data, (key, data) ∈ globals →
                                attrs self !! key = Some data
    | (s, inl x) =>
        ∃ path key e, (path, key) ∈ load_tasks (_setup_paths dir)
                      ∧ decoded fs path = inl e ∧ x = raised_by e
    end.
Proof.
  intros Hcallers Hperm. split.
  - apply run_well_formed. split.
    + by intros l inst Hl.
    + eapply Forall_impl; [exact Hcallers|]. intros [o c] [Ho Hc].
      cbn [fst snd] in *. by subst c.
  - destruct (first_failure fs order)
      as [Hall|(pre & p & k & post & e & -> & Hpre & Hfail)].
    + destruct (module_body_success fs dir order) as (globals & Hg & ->);
        [done..|].
      split; [by apply read_all_names in Hg|].
      exists (set_loaded (stored fs order (configured dir))).
      split_and!; [done|done| |].
      * by apply stored_fully_populated.
      * intros key data Hin. by apply (read_all_lookup _ _ _ _ _ Hg).
    + rewrite (module_body_failure _ _ _ _ _ _ e) by done.
      exists p, k, e. split_and!; [|done..].
      rewrite <-Hperm. apply elem_of_app. right. left.
Qed.

Lemma loaded_flag_sound_witness :
  flag_sound
    (run (H:=Sample.codec) Sample.fs_ok Sample.dir
       ([0; 0; 0; 0; 1; 1] ++ replicate 13 0)
       (init_state,
        [(Sample.in_order, AtCheck); (reverse Sample.in_order, AtCheck)])).1
  ∧ _loaded
      <$> published
            (run (H:=Sample.codec) Sample.fs_ok Sample.dir
               ([0; 0; 0; 0; 1; 1] ++ replicate 13 0)
               (init_state,
                [(Sample.in_order, AtCheck);
                 (reverse Sample.in_order, AtCheck)])).1
    = Some true.
Proof.
  assert (Hcallers : Forall (λ c : caller,
    c.1 ≡ₚ load_tasks (_setup_paths Sample.dir) ∧ c.2 = AtCheck)
    [(Sample.in_order, AtCheck); (reverse Sample.in_order, AtCheck)]).
  { constructor; [split; reflexivity|].
    constructor; [split; [apply reverse_Permutation|reflexivity]|].
    constructor. }
  assert (Horder : Sample.in_order ≡ₚ load_tasks (_setup_paths Sample.dir))
    by reflexivity.
  split.
  - exact (proj1 (loaded_flag_sound (H:=Sample.codec) Sample.fs_ok Sample.dir
                    ([0; 0; 0; 0; 1; 1] ++ replicate 13 0) _ Sample.in_order
                    Hcallers Horder)).
  - vm_compute. reflexivity.
Defined.

(** The claim C2 fails as stated: with all eleven files in place, a
    second caller that calls the constructor while the first is in the
    loop finds [_instance] set and is handed the instance when only
    [label_dict] has been stored. *)
Lemma caller_sees_partial_cache :
  let r := run (H:=Sample.codec) Sample.fs_ok Sample.dir [0; 0; 0; 0; 1; 1]
             (init_state,
              [(Sample.in_order, AtCheck); (Sample.in_order, AtCheck)]) in
  r.2.*2 !! 1 = Some (Finished (inr 0))
  ∧ get r.1 "label_dict" = Some (inr (Sample.Mapping [x01]))
  ∧ get r.1 "type_dict" = Some (inl (AttributeError "type_dict"))
  ∧ _loaded <$> published r.1 = Some false
  ∧ ¬ (published r.1 = None
       ∨ ∃ self, published r.1 = Some self ∧ fully_populated self).
Proof.
  intros r.
  assert (Htype : get r.1 "type_dict" = Some (inl (AttributeError "type_dict")))
    by (vm_compute; reflexivity).
  split_and!; [vm_compute; reflexivity..|].
  clearbody r. unfold get in Htype. intros [Hnone|(self & Hself & Hfull)].
  - rewrite Hnone in Htype. discriminate Htype.
  - rewrite Hself in Htype. injection Htype as Htype.
    destruct (Hfull "type_dict") as [data Hdata]; [right; left|].
    unfold getattr in Htype. rewrite Hdata in Htype. discriminate Htype.
Qed.

(** A call that overlaps with another can be handed the instance of the
    other: two callers pass the test, the first creates its instance and
    loads it, the second creates its own before the first returns, and
    [return cls._instance] hands the first caller the new, empty
    instance. *)
Lemma caller_handed_another_instance :
  let r := run (H:=Sample.codec) Sample.fs_ok Sample.dir
             ([0; 1] ++ replicate 15 0 ++ [1; 0])
             (init_state,
              [(Sample.in_order, AtCheck); (Sample.in_order, AtCheck)]) in
  r.2.*2 !! 0 = Some (Finished (inr 1))
  ∧ _loaded (H:=Sample.codec) <$> (heap r.1 !! 0) = Some true
  ∧ _loaded (H:=Sample.codec) <$> (heap r.1 !! 1) = Some false
  ∧ get r.1 "label_dict" = Some (inl (AttributeError "label_dict")).
Proof. intros r. split_and!; vm_compute; reflexivity. Qed.


(** * Further properties of the loader module *)

(** ** The bulk accessor *)

Lemma read_all_first_missing `{Codec} self pre key post :
  (∀ k, k ∈ pre → is_Some (attrs self !! k)) → attrs self !! key = None →
  read_all self (pre ++ key :: post) = inl (AttributeError key).
Proof.
  intros Hpre Hkey. induction pre as [|k pre IH]; cbn [app read_all];
    unfold getattr.
  - by rewrite Hkey.
  - destruct (Hpre k) as [d Hd]; [left|]. rewrite Hd.
    rewrite IH; [done|]. intros k' Hk'. apply Hpre. by right.
Qed.

(** X1 — [all_dictionaries] returns a snapshot exactly when the instance
    holds all eleven keys; the snapshot then lists the eleven names in
    the order of the source, each with the payload stored under it, and
    nothing else the instance may hold.  Otherwise the property raises
    [AttributeError] for the first name, in that order, that is missing. *)
Theorem all_dictionaries_complete_or_first_missing `{Codec} self :
  (fully_populated self ↔ ∃ snapshot, all_dictionaries self = inr snapshot)
  ∧ (∀ snapshot, all_dictionaries self = inr snapshot →
       snapshot.*1 = accessor_names
       ∧ ∀ key data, (key, data) ∈ snapshot
                     ↔ key ∈ accessor_names ∧ attrs self !! key = Some data)
  ∧ (∀ pre key post,
       accessor_names = pre ++ key :: post →
       (∀ k, k ∈ pre → is_Some (attrs self !! k)) →
       attrs self !! key = None →
       all_dictionaries self = inl (AttributeError key)).
Proof.
  assert (Hsnap : ∀ snapshot, all_dictionaries self = inr snapshot →
    snapshot.*1 = accessor_names
    ∧ ∀ key data, (key, data) ∈ snapshot
                  ↔ key ∈ accessor_names ∧ attrs self !! key = Some data).
  { intros snapshot Hall. unfold all_dictionaries in Hall.
    pose proof (read_all_names _ _ _ Hall) as Hnames.
    split; [done|]. intros key data. split.
    - intros Hin. split; [|by apply (read_all_lookup _ _ _ _ _ Hall)].
      rewrite <-Hnames. apply list_elem_of_fmap. by exists (key, data).
    - intros [Hkey Hdata]. by apply (read_all_elem _ _ _ _ _ Hall). }
  split_and!; [|exact Hsnap|].
  - split; [apply read_all_ok|].
    intros [snapshot Hall] key Hkey.
    destruct (Hsnap _ Hall) as [Hnames Hin].
    rewrite <-Hnames in Hkey.
    apply list_elem_of_fmap in Hkey as [[k d] [-> Hkd]].
    exists d. by apply Hin.
  - intros pre key post Hsplit Hpre Hkey. unfold all_dictionaries.
    rewrite Hsplit. by apply read_all_first_missing.
Qed.

Lemma all_dictionaries_complete_or_first_missing_witness :
  all_dictionaries (H:=Sample.codec)
    (setattr (H:=Sample.codec) new_instance "label_dict"
       (Sample.Mapping [x01]))
  = inl (AttributeError "type_dict").
Proof.
  apply (all_dictionaries_complete_or_first_missing (H:=Sample.codec))
    with (pre := ["label_dict"])
         (post := ["class_dict"; "fact_dict"; "yago_inverted_index";
                   "yago_relation_index"; "main_index_triples";
                   "synth_type_kb"; "synth_relation_kb";
                   "synth_type_inverted_index";
                   "synth_relation_inverted_index"]).
  - reflexivity.
  - intros k Hk. apply list_elem_of_singleton in Hk as ->.
    exists (Sample.Mapping [x01]). vm_compute. reflexivity.
  - vm_compute. reflexivity.
Defined.


(** ** Which files a run opens *)

(** X2 — Whatever the order of completion and whether or not the batch
    fails, the first constructor call opens every declared file that
    [os.path.exists] finds exactly once, opens no declared file that it
    does not find, and opens no other file: a failure stops neither the
    tasks already running nor those still queued. *)
Theorem each_declared_file_opened_once `{Codec} fs dir order :
  order ≡ₚ load_tasks (_setup_paths dir) →
  (∀ path key, (path, key) ∈ load_tasks (_setup_paths dir) →
     open_count path (trace (__new__ fs dir order init_state).1)
     = if decide (present fs path) then 1 else 0)
  ∧ (∀ p, p ∈ opened (trace (__new__ fs dir order init_state).1) →
          p ∈ (load_tasks (_setup_paths dir)).*1 ∧ present fs p).
Proof.
  intros Hperm. split.
  - intros path key Hin. unfold open_count. rewrite trace_opened.
    destruct (decide (present fs path)) as [Hp|Hp].
    + apply count_NoDup.
      * apply NoDup_filter, load_tasks_paths_NoDup.
      * apply list_elem_of_filter. split; [done|].
        apply list_elem_of_fmap. by exists (path, key).
    + rewrite filter_eq_notin; [done|].
      intros [Hp' _]%list_elem_of_filter. done.
  - intros p. rewrite trace_opened.
    intros [Hp Hin]%list_elem_of_filter. by split.
Qed.

Lemma each_declared_file_opened_once_witness :
  open_count (CLASS_FILE_PATH Sample.cfg)
    (trace (__new__ (H:=Sample.codec) Sample.fs_missing Sample.dir
              Sample.type_first init_state).1) = 1
  ∧ open_count (TYPE_FILE_PATH Sample.cfg)
      (trace (__new__ (H:=Sample.codec) Sample.fs_missing Sample.dir
                Sample.type_first init_state).1) = 0.
Proof.
  assert (Hperm : Sample.type_first ≡ₚ load_tasks (_setup_paths Sample.dir)).
  { apply (bool_decide_unpack _). vm_compute. exact I. }
  pose proof (each_declared_file_opened_once (H:=Sample.codec)
                Sample.fs_missing Sample.dir Sample.type_first Hperm)
    as [Hcount _].
  split.
  - rewrite (Hcount _ "class_dict") by (do 2 right; left).
    vm_compute. reflexivity.
  - rewrite (Hcount _ "type_dict") by (right; left).
    vm_compute. reflexivity.
Defined.


(** ** The registry *)

Lemma NoDup_fst_functional {A B} (l : list (A * B)) x y1 y2 :
  NoDup l.*1 → (x, y1) ∈ l → (x, y2) ∈ l → y1 = y2.
Proof.
  induction l as [|[a b] l IH]; intros Hnd H1 H2.
  - by apply elem_of_nil in H1.
  - rewrite fmap_cons in Hnd. apply NoDup_cons in Hnd as [Ha Hnd].
    cbn [fst] in Ha.
    apply elem_of_cons in H1 as [H1|H1]; apply elem_of_cons in H2 as [H2|H2].
    + congruence.
    + injection H1 as -> ->. exfalso.
      apply Ha, list_elem_of_fmap. by exists (a, y2).
    + injection H2 as -> ->. exfalso.
      apply Ha, list_elem_of_fmap. by exists (a, y1).
    + by apply IH.
Qed.

Lemma NoDup_snd_functional {A B} (l : list (A * B)) x1 x2 y :
  NoDup l.*2 → (x1, y) ∈ l → (x2, y) ∈ l → x1 = x2.
Proof.
  induction l as [|[a b] l IH]; intros Hnd H1 H2.
  - by apply elem_of_nil in H1.
  - rewrite fmap_cons in Hnd. apply NoDup_cons in Hnd as [Hb Hnd].
    cbn [snd] in Hb.
    apply elem_of_cons in H1 as [H1|H1]; apply elem_of_cons in H2 as [H2|H2].
    + congruence.
    + injection H1 as -> ->. exfalso.
      apply Hb, list_elem_of_fmap. by exists (x2, b).
    + injection H2 as -> ->. exfalso.
      apply Hb, list_elem_of_fmap. by exists (x1, b).
    + by apply IH.
Qed.

(** X4 — Whatever the base directory, the registry pairs keys and files
    one to one: the eleven paths are pairwise distinct, so are their file
    names, and two declared tasks have the same path exactly when they
    have the same key. *)
Theorem registry_one_to_one dir :
  NoDup (load_tasks (_setup_paths dir)).*1
  ∧ NoDup (Py.basename <$> (load_tasks (_setup_paths dir)).*1)
  ∧ ∀ p1 k1 p2 k2,
      (p1, k1) ∈ load_tasks (_setup_paths dir) →
      (p2, k2) ∈ load_tasks (_setup_paths dir) →
      (p1 = p2 ↔ k1 = k2).
Proof.
  split_and!.
  - apply load_tasks_paths_NoDup.
  - rewrite load_tasks_base_names. apply base_names_NoDup.
  - intros p1 k1 p2 k2 H1 H2. split; intros ->.
    + eapply NoDup_fst_functional; [apply load_tasks_paths_NoDup|done..].
    + eapply NoDup_snd_functional; [|done..].
      rewrite load_tasks_keys. apply accessor_names_NoDup.
Qed.

Lemma registry_one_to_one_witness :
  LABEL_FILE_PATH Sample.cfg = TYPE_FILE_PATH Sample.cfg
  ↔ "label_dict" = "type_dict".
Proof.
  apply (registry_one_to_one Sample.dir).
  - left.
  - right. left.
Defined.


(** ** When the constructor returns *)

(** X5 — The first constructor call of a process returns the instance
    exactly when every declared file is found by [os.path.exists],
    decodes in the format its suffix selects, and decodes to an object
    that has a length.  In every other case it raises what the loop
    raises for one of the declared tasks that failed: [SystemExit(1)]
    when the exception of that task derives from [Exception], and the
    exception itself when it does not. *)
Theorem constructor_returns_iff_all_decode `{Codec} fs dir order :
  order ≡ₚ load_tasks (_setup_paths dir) →
  ((__new__ fs dir order init_state).2 = inr 0
   ↔ ∀ path key, (path, key) ∈ load_tasks (_setup_paths dir) →
       ∃ f data items,
         fs !! path = Some f ∧ f ≠ Unstattable
         ∧ spec_decode (dispatched path) f = inr data
         ∧ len data = inr items)
  ∧ ((__new__ fs dir order init_state).2 = inr 0
     ∨ ∃ path key e,
         (path, key) ∈ load_tasks (_setup_paths dir)
         ∧ decoded fs path = inl e
         ∧ (__new__ fs dir order init_state).2 = inl (raised_by e)).
Proof.
  intros Hperm.
  destruct (first_failure fs order)
    as [Hall|(pre & p & k & post & e & -> & Hpre & Hfail)].
  - rewrite new_success by done. split; [|by left]. split; [|done].
    intros _ path key Hin.
    assert (Hin' : (path, key) ∈ order) by by rewrite Hperm.
    destruct (proj1 (Forall_forall _ _) Hall _ Hin') as [data Hdec].
    cbn [fst] in Hdec.
    destruct (exists_inv fs path) as (f & Hfs & Hf);
      [by apply (decodes_present _ _ data)|].
    rewrite (decoded_present _ _ f) in Hdec by done. unfold measured in Hdec.
    destruct (spec_decode (dispatched path) f) as [e|d] eqn:Hspec; [done|].
    destruct (len d) as [e|items] eqn:Hlen; [done|].
    injection Hdec as ->. by exists f, data, items.
  - assert (Hin : (p, k) ∈ load_tasks (_setup_paths dir)).
    { rewrite <-Hperm. apply elem_of_app. right. left. }
    rewrite (new_failure _ _ _ _ _ _ e) by done. split.
    + split; [done|]. intros Hall. exfalso.
      destruct (Hall p k Hin) as (f & data & items & Hfs & Hf & Hdec & Hlen).
      rewrite (decoded_present _ _ f) in Hfail by done. unfold measured in Hfail.
      by rewrite Hdec, Hlen in Hfail.
    + right. by exists p, k, e.
Qed.

Lemma constructor_returns_iff_all_decode_witness :
  (__new__ (H:=Sample.codec) Sample.fs_unsized Sample.dir
     (reverse Sample.in_order) init_state).2 = inr 0
  ∨ ∃ path key e,
      (path, key) ∈ load_tasks (_setup_paths Sample.dir)
      ∧ decoded (H:=Sample.codec) Sample.fs_unsized path = inl e
      ∧ (__new__ (H:=Sample.codec) Sample.fs_unsized Sample.dir
           (reverse Sample.in_order) init_state).2 = inl (raised_by e).
Proof.
  apply (constructor_returns_iff_all_decode (H:=Sample.codec)).
  apply reverse_Permutation.
Defined.


(** ** Running [_initialize] again *)



(** ** The timing decorator *)

(** X7 — [timing_decorator] changes neither the result nor the name of
    the function it wraps: applied [n] times, the wrapped function returns
    what the function returns after the output of the function followed
    by [n] timing lines that carry the name of the function; when the
    function raises, the exception passes through and no timing line is
    printed. *)
Theorem timing_decorator_transparent {A B E T : Type} (timing : string → T)
    (func : function A B E T) (n : nat) (args : A) :
  __name__ (Nat.iter n (timing_decorator timing) func) = __name__ func
  ∧ call (Nat.iter n (timing_decorator timing) func) args
    = match call func args with
      | (out, inr result) =>
          (out ++ replicate n (timing (__name__ func)), inr result)
      | (out, inl e) => (out, inl e)
      end.
Proof.
  induction n as [|n [IHname IHcall]]; simpl.
  - split; [done|].
    destruct (call func args) as [out [e|result]]; [done|].
    by rewrite app_nil_r.
  - split; [exact IHname|]. rewrite IHcall, IHname.
    destruct (call func args) as [out [e|result]]; [done|].
    rewrite <-app_assoc. do 2 f_equal.
    change (?x :: replicate n ?x) with (replicate (S n) x).
    by rewrite replicate_S_end.
Qed.

(** ** What a reader can find under a key *)

Section PayloadFacts.
Context `{Codec}.

Lemma heap_correct_store fs dir s l old x :
  heap_correct fs dir s → heap s !! l = Some old → payload_correct fs dir x →
  heap_correct fs dir (store s l x).
Proof.
  intros Hc Hold Hx l' inst. rewrite (lookup_store _ _ _ _ old) by done.
  destruct (decide (l = l')) as [<-|Hne]; [by intros [= <-]|apply Hc].
Qed.

Lemma heap_correct_log fs dir s tr :
  heap_correct fs dir s → heap_correct fs dir (log s tr).
Proof. intros Hc. exact Hc. Qed.

Lemma payload_correct_setattr fs dir self path key data :
  payload_correct fs dir self →
  (path, key) ∈ load_tasks (_setup_paths dir) → decoded fs path = inr data →
  payload_correct fs dir (setattr self key data).
Proof.
  intros Hc Hin Hdec k d. cbn [setattr attrs].
  destruct (decide (key = k)) as [<-|Hne].
  - rewrite lookup_insert_eq. intros [= <-]. by exists path.
  - rewrite lookup_insert_ne by done. apply Hc.
Qed.

(** A step of a call stores only decodes of declared files under their
    own keys. *)
Lemma step_coherent fs dir order s c s' c' :
  order ⊆ load_tasks (_setup_paths dir) →
  heap_correct fs dir s → pending_declared dir c →
  step fs dir order s c = (s', c') →
  heap_correct fs dir s' ∧ pending_declared dir c'.
Proof.
  intros Horder Hc Hpc.
  destruct c as [| | |self pending|self| |r]; cbn [step].
  - intros [= <- <-]. split; [done|]. by destruct (cls_instance s).
  - intros [= <- <-]. split; [|done].
    intros l inst Hl. cbn [heap] in Hl.
    apply lookup_snoc_Some in Hl as [[_ Hl]|[_ <-]]; [by apply (Hc l)|].
    intros k d Hk. cbn in Hk. by rewrite lookup_empty in Hk.
  - destruct (cls_instance s) as [self|]; [|by intros [= <- <-]].
    destruct (heap s !! self) as [inst|] eqn:Hself; [|by intros [= <- <-]].
    destruct (_loaded inst); [by intros [= <- <-]|].
    intros [= <- <-]. split; [|done].
    apply heap_correct_log, (heap_correct_store _ _ _ _ inst); [done..|].
    exact (Hc self inst Hself).
  - destruct pending as [|[path key] rest]; [by intros [= <- <-]|].
    destruct (heap s !! self) as [inst|] eqn:Hself; [|by intros [= <- <-]].
    assert (Hin : (path, key) ∈ load_tasks (_setup_paths dir)).
    { apply Hpc. left. }
    assert (Hrest : rest ⊆ load_tasks (_setup_paths dir)).
    { intros t Ht. apply Hpc. by right. }
    destruct (decoded fs path) as [e|d] eqn:Hdec.
    + rewrite (handle_err _ _ _ _ e) by done. intros [= <- <-].
      split; [|done].
      apply heap_correct_log, (heap_correct_store _ _ _ _ inst); [done..|].
      by apply (Hc self).
    + rewrite (handle_ok _ _ _ _ d) by done. intros [= <- <-].
      split; [|done].
      apply heap_correct_log, (heap_correct_store _ _ _ _ inst); [done..|].
      apply (payload_correct_setattr _ _ _ path); [by apply (Hc self)|done..].
  - destruct (heap s !! self) as [inst|] eqn:Hself; [|by intros [= <- <-]].
    intros [= <- <-]. split; [|done].
    apply (heap_correct_store _ _ _ _ inst); [done..|].
    exact (Hc self inst Hself).
  - by destruct (cls_instance s); intros [= <- <-].
  - by intros [= <- <-].
Qed.

Lemma sched_step_coherent fs dir cfg i :
  coherent fs dir cfg → coherent fs dir (sched_step fs dir cfg i).
Proof.
  destruct cfg as [s cs]. intros [Hc Hcs]. unfold sched_step.
  destruct (cs !! i) as [[order c]|] eqn:Hi; [|by split].
  destruct (step fs dir order s c) as [s' c'] eqn:Hstep.
  destruct (proj1 (Forall_lookup _ _) Hcs _ _ Hi) as [Horder Hpc].
  destruct (step_coherent _ _ _ _ _ _ _ Horder Hc Hpc Hstep) as [Hc' Hpc'].
  split; [done|]. cbn [fst snd]. by apply Forall_insert.
Qed.

Lemma run_coherent fs dir schedule cfg :
  coherent fs dir cfg → coherent fs dir (run fs dir schedule cfg).
Proof.
  revert cfg. induction schedule as [|i schedule IH]; intros cfg Hc; [done|].
  apply IH. by apply sched_step_coherent.
Qed.

End PayloadFacts.

(** X8 — Under every interleaving of constructor calls and at every step,
    whatever an instance holds under a declared key is the decode of that
    key's own file: a caller that is handed a partly loaded instance can
    miss keys, but it never reads a payload that belongs to another key
    or that no file decodes to. *)
Theorem readable_payloads_are_correct `{Codec} fs dir schedule
    (callers : list caller) :
  Forall (λ c : caller,
    c.1 ≡ₚ load_tasks (_setup_paths dir) ∧ c.2 = AtCheck) callers →
  (∀ l self path key data,
     heap (run fs dir schedule (init_state, callers)).1 !! l = Some self →
     attrs self !! key = Some data →
     (path, key) ∈ load_tasks (_setup_paths dir) →
     decoded fs path = inr data)
  ∧ (∀ path key data,
       get (run fs dir schedule (init_state, callers)).1 key
       = Some (inr data) →
       (path, key) ∈ load_tasks (_setup_paths dir) →
       decoded fs path = inr data).
Proof.
  intros Hcallers.
  assert (Hrun : coherent fs dir (run fs dir schedule (init_state, callers))).
  { apply run_coherent. split.
    - by intros l inst Hl.
    - eapply Forall_impl; [exact Hcallers|]. intros [o c] [Ho Hc].
      cbn [fst snd] in *. subst c. split; [|done].
      intros t Ht. by rewrite <-Ho. }
  destruct Hrun as [Hheap _].
  assert (Hmain : ∀ l self path key data,
    heap (run fs dir schedule (init_state, callers)).1 !! l = Some self →
    attrs self !! key = Some data →
    (path, key) ∈ load_tasks (_setup_paths dir) →
    decoded fs path = inr data).
  { intros l self path key data Hl Hkey Hin.
    destruct (Hheap l self Hl key data Hkey) as (path' & Hin' & Hdec).
    replace path with path'; [done|].
    apply (NoDup_snd_functional (load_tasks (_setup_paths dir)) _ _ key);
      [|done..].
    rewrite load_tasks_keys. apply accessor_names_NoDup. }
  split; [exact Hmain|].
  intros path key data Hget Hin. unfold get, published in Hget.
  destruct (cls_instance _) as [l|]; [|done]. cbn in Hget.
  destruct (heap _ !! l) as [self|] eqn:Hl; [|done]. cbn in Hget.
  injection Hget as Hget. unfold getattr in Hget.
  destruct (attrs self !! key) as [d|] eqn:Hkey; [|done].
  injection Hget as ->. exact (Hmain l self path key data Hl Hkey Hin).
Qed.

Lemma readable_payloads_are_correct_witness :
  decoded (H:=Sample.codec) Sample.fs_ok (LABEL_FILE_PATH Sample.cfg)
  = inr (Sample.Mapping [x01]).
Proof.
  assert (Hcallers : Forall (λ c : caller,
    c.1 ≡ₚ load_tasks (_setup_paths Sample.dir) ∧ c.2 = AtCheck)
    [(Sample.in_order, AtCheck); (reverse Sample.in_order, AtCheck)]).
  { constructor; [split; reflexivity|].
    constructor; [split; [apply reverse_Permutation|reflexivity]|].
    constructor. }
  assert (Hget :
    get (run (H:=Sample.codec) Sample.fs_ok Sample.dir [0; 0; 0; 0; 1; 1]
           (init_state,
            [(Sample.in_order, AtCheck); (reverse Sample.in_order, AtCheck)])).1
      "label_dict" = Some (inr (Sample.Mapping [x01])))
    by (vm_compute; reflexivity).
  assert (Hin : (LABEL_FILE_PATH Sample.cfg, "label_dict")
                ∈ load_tasks (_setup_paths Sample.dir)) by left.
  exact (proj2 (readable_payloads_are_correct (H:=Sample.codec) Sample.fs_ok
                  Sample.dir [0; 0; 0; 0; 1; 1] _ Hcallers)
           _ _ _ Hget Hin).
Defined.


(** ** The batch, thread by thread *)

(** X12 — Under every schedule of the workers and the main thread, a
    batch that has left the method has done what [_load_all_dictionaries]
    does for the futures in the order [as_completed] yielded them: it
    leaves the same instance and the same result, and it has opened and
    printed the same, up to the order of events of different threads. *)
Theorem pool_run_is_batch `{Codec} fs dir schedule r (p : pool) :
  p = pool_run fs schedule
        (submit (load_tasks (_setup_paths dir)) (configured dir)) →
  pool_main p = Exited r →
  ∃ order tr,
    order ≡ₚ load_tasks (_setup_paths dir)
    ∧ pool_order p `prefix_of` order
    ∧ _load_all_dictionaries fs order (configured dir) = (tr, pool_self p, r)
    ∧ pool_out p ≡ₚ tr.
Proof.
  intros -> Hmain. apply (pool_exit fs (_setup_paths dir)); [done| |done].
  apply pool_inv_run, submit_inv.
Qed.

Lemma pool_run_is_batch_witness :
  let p1 := pool_run (H:=Sample.codec) Sample.fs_missing
              Sample.label_then_type
              (submit (load_tasks (_setup_paths Sample.dir))
                 (configured Sample.dir)) in
  let p := pool_run (H:=Sample.codec) Sample.fs_missing
             (Sample.label_then_type ++ finish_all Sample.fs_missing p1)
             (submit (load_tasks (_setup_paths Sample.dir))
                (configured Sample.dir)) in
  pool_main p = Exited (inl (SystemExit 1))
  ∧ ∃ order tr,
      order ≡ₚ load_tasks (_setup_paths Sample.dir)
      ∧ _load_all_dictionaries (H:=Sample.codec) Sample.fs_missing order
          (configured Sample.dir)
        = (tr, pool_self p, inl (SystemExit 1))
      ∧ pool_out p ≡ₚ tr.
Proof.
  intros p1 p.
  assert (Hmain : pool_main p = Exited (inl (SystemExit 1)))
    by (vm_compute; reflexivity).
  split; [exact Hmain|].
  destruct (pool_run_is_batch (H:=Sample.codec) Sample.fs_missing Sample.dir
              (Sample.label_then_type ++ finish_all Sample.fs_missing p1)
              (inl (SystemExit 1)) p eq_refl Hmain)
    as (order & tr & Hperm & _ & Hbatch & Hout).
  exists order, tr. exact (conj Hperm (conj Hbatch Hout)).
Defined.


Module TerminalFacts.
Import Terminal.

Lemma length_append (a b : string) :
  String.length (a +:+ b) = String.length a + String.length b.
Proof. induction a as [|c a IH]; simpl; [done|]. by rewrite IH. Qed.

Lemma length_str_mul (s : string) (n : nat) :
  String.length (str_mul s n) = n * String.length s.
Proof. induction n as [|n IH]; simpl; [done|]. by rewrite length_append, IH. Qed.

Lemma half_le (n : nat) : (n / 2 ≤ n - n / 2 ≤ n / 2 + 1)%nat.
Proof.
  pose proof (Nat.div_mod_eq n 2) as H.
  pose proof (Nat.mod_upper_bound n 2) as H'. lia.
Qed.

Lemma getitem_in_range {A : Type} (xs : list A) (i : Z) :
  (0 ≤ i < Z.of_nat (length xs))%Z →
  ∃ x, getitem xs i = inr x ∧ xs !! Z.to_nat i = Some x.
Proof.
  intros Hi. unfold getitem.
  destruct (Z.ltb_spec i 0) as [?|_]; [lia|].
  destruct (Z.ltb_spec i 0) as [?|_]; [lia|].
  destruct (Z.leb_spec (Z.of_nat (length xs)) i) as [?|_]; [lia|].
  cbn [orb].
  destruct (lookup_lt_is_Some_2 xs (Z.to_nat i)) as [x Hx]; [lia|].
  exists x. by rewrite Hx.
Qed.

End TerminalFacts.

(** X9 — ([print_header], main_terminal.py)  The header is three lines and
    an empty one: two rules of sixty [=] signs around the title, which is
    never cut: a title of at most sixty characters is padded with spaces
    to sixty, the left padding equal to the right one or one shorter, and
    a longer title is printed as it is. *)
Theorem print_header_centers_title (title : string) :
  ∃ l r : nat,
    Terminal.print_header title =
      [Terminal.str_mul "=" 60;
       Terminal.str_mul " " l +:+ title +:+ Terminal.str_mul " " r;
       Terminal.str_mul "=" 60; ""] ∧
    String.length (Terminal.str_mul "=" 60) = 60 ∧
    (l ≤ r ≤ l + 1)%nat ∧
    l + r = 60 - String.length title ∧
    String.length (Terminal.center 60 title) = 60 `max` String.length title.
Proof.
  exists ((60 - String.length title) / 2),
    (60 - String.length title - (60 - String.length title) / 2).
  split; [reflexivity|]. split; [reflexivity|].
  pose proof (TerminalFacts.half_le (60 - String.length title)) as Hh.
  split; [exact Hh|]. split; [lia|].
  unfold Terminal.center.
  rewrite !TerminalFacts.length_append, !TerminalFacts.length_str_mul.
  cbn [String.length]. lia.
Qed.

(** X10 — (the selection of [discover_tables_workflow] and of
    [integrate_tables_workflow], main_terminal.py)  The number the user enters is
    checked before the list is indexed: an accepted number lies between
    one and the length of the list and yields the entry at that position
    counted from one; zero and negative numbers are refused and never
    count from the end of the list; the indexing never raises
    [IndexError]. *)
Theorem selection_is_checked {A : Type} (none_found : string)
    (xs : list A) (choice : Z) :
  match Terminal.select none_found xs choice with
  | inr x =>
      (1 ≤ choice ≤ Z.of_nat (length xs))%Z ∧
      xs !! Z.to_nat (choice - 1) = Some x
  | inl (Terminal.ValueError msg) =>
      xs = [] ∧ msg = none_found ∨
      xs ≠ [] ∧ (choice < 1 ∨ Z.of_nat (length xs) < choice)%Z ∧
        msg = "Invalid selection"
  | inl Terminal.IndexError => False
  end.
Proof.
  unfold Terminal.select. destruct xs as [|x0 xs']; [by left|].
  set (xs := x0 :: xs').
  destruct (Z.ltb_spec choice 1) as [?|?]; cbn [orb].
  { right. split; [done|]. split; [lia|done]. }
  destruct (Z.ltb_spec (Z.of_nat (length xs)) choice) as [?|?].
  { right. split; [done|]. split; [lia|done]. }
  destruct (TerminalFacts.getitem_in_range xs (choice - 1)) as (x & -> & Hx);
    [lia|].
  split; [lia|exact Hx].
Qed.

(** X11 — ([main_menu], main_terminal.py)  When no workflow puts input
    back, the menu ends on every finite input, within one round per line
    of input and one more.  It ends in one of two ways: by choice 5, with
    exit status 0 and [Exiting program...] as its last message, or by an
    exception that is not caught (the end of the input or Ctrl-C at the
    menu's own prompt, or an exception other than [KeyboardInterrupt] out
    of a workflow), and then without that message. *)
Theorem main_menu_ends_by_exit_or_exception (w : Terminal.workflows)
    (keys : list Terminal.key) (Hc : Terminal.consuming w) :
  ∃ out e,
    Terminal.main_menu w (S (length keys)) keys = (out, Some e) ∧
    (e = Terminal.Exit 0 ∧ last out = Some Terminal.Exiting ∨
     (∃ x, e = Terminal.Uncaught x) ∧ Terminal.Exiting ∉ out).
Proof.
  enough (Hgen : ∀ fuel ks, (length ks < fuel)%nat →
    ∃ out e, Terminal.main_menu w fuel ks = (out, Some e) ∧
      (e = Terminal.Exit 0 ∧ last out = Some Terminal.Exiting ∨
       (∃ x, e = Terminal.Uncaught x) ∧ Terminal.Exiting ∉ out)) by (apply Hgen; lia).
  clear keys. induction fuel as [|fuel IH]; intros keys Hlen; [lia|].
  assert (Hcons : ∀ (a : Terminal.shown) out, a ≠ Terminal.Exiting →
            (∀ r : Terminal.ended, (r = Terminal.Exit 0 ∧ last out = Some Terminal.Exiting ∨
               (∃ x, r = Terminal.Uncaught x) ∧ Terminal.Exiting ∉ out) →
             r = Terminal.Exit 0 ∧ last (a :: out) = Some Terminal.Exiting ∨
               (∃ x, r = Terminal.Uncaught x) ∧ Terminal.Exiting ∉ a :: out)).
  { intros a out Ha r [[-> Hl]|[Hx Hn]].
    - left. split; [done|]. destruct out; [done|]. exact Hl.
    - right. split; [done|]. intros [?|?]%elem_of_cons; [by apply Ha|done]. }
  cbn [Terminal.main_menu].
  destruct keys as [|[choice|] rest].
  - eexists _, _. split; [reflexivity|]. right. split; [by eexists|].
    intros [?|?%elem_of_nil]%elem_of_cons; done.
  - destruct (Terminal.dispatch w choice) as [workflow|] eqn:Hd.
    + pose proof (Hc choice workflow rest Hd) as Hle.
      destruct (workflow rest) as [rest' [| |e]]; cbn [fst] in Hle.
      * destruct (IH rest') as (out & r & -> & Hr); [cbn [length] in Hlen; lia|].
        eexists _, _. split; [reflexivity|]. by apply Hcons.
      * destruct (IH rest') as (out & r & -> & Hr); [cbn [length] in Hlen; lia|].
        eexists _, _. split; [reflexivity|]. apply Hcons; [done|]. by apply Hcons.
      * eexists _, _. split; [reflexivity|]. right. split; [by eexists|].
        intros [?|?%elem_of_nil]%elem_of_cons; done.
    + destruct (String.eqb choice "5").
      * eexists _, _. split; [reflexivity|]. by left.
      * destruct (IH rest) as (out & r & -> & Hr); [cbn [length] in Hlen; lia|].
        eexists _, _. split; [reflexivity|]. apply Hcons; [done|]. by apply Hcons.
  - eexists _, _. split; [reflexivity|]. right. split; [by eexists|].
    intros [?|?%elem_of_nil]%elem_of_cons; done.
Qed.

Lemma main_menu_ends_by_exit_or_exception_witness :
  Terminal.consuming Terminal.sample ∧
  ∃ out e,
    Terminal.main_menu Terminal.sample 8 Terminal.typed = (out, Some e) ∧
    (e = Terminal.Exit 0 ∧ last out = Some Terminal.Exiting ∨
     (∃ x, e = Terminal.Uncaught x) ∧ Terminal.Exiting ∉ out).
Proof.
  assert (Hc : Terminal.consuming Terminal.sample).
  { intros choice workflow keys Hd.
    assert (Hw : workflow = Terminal.press_enter).
    { unfold Terminal.dispatch in Hd.
      repeat (destruct (String.eqb choice _); [by injection Hd|]).
      discriminate Hd. }
    rewrite Hw. destruct keys as [|[?|] ?]; simpl; lia. }
  split; [exact Hc|].
  exact (main_menu_ends_by_exit_or_exception Terminal.sample Terminal.typed Hc).
Defined.


